(** * PR Maintainability Checker: a shallow embedding of [app.js]

    The pull-request handler of [app.js] and its three text heuristics
    ([countLines], [countMethods], [findTodos]) are embedded as Rocq
    functions.  JavaScript strings are sequences of UTF-16 code units; the
    regular expressions of the source are kept as syntax trees and run by a
    backtracking matcher written in the continuation style in which
    ECMAScript itself defines pattern matching. *)

From Stdlib Require Import String Ascii.
From Stdlib Require Import List NArith Arith Bool Lia Sorted DecimalNat.
Import ListNotations.

Set Implicit Arguments.

(** ** JavaScript strings *)

(** A UTF-16 code unit. *)
Definition char := N.

(** A JavaScript string: the sequence of its code units. *)
Definition jsstring := list char.

(** An ASCII literal of the source, as code units. *)
Definition lit (s : string) : jsstring :=
  map N_of_ascii (list_ascii_of_string s).

Module Ch.
Definition lf : char := 10%N.
Definition space : char := 32%N.
Definition hash : char := 35%N.
Definition lparen : char := 40%N.
Definition rparen : char := 41%N.
Definition star : char := 42%N.
Definition colon : char := 58%N.
Definition eq : char := 61%N.
Definition lbrace : char := 123%N.
(** U+26A0 WARNING SIGN, U+FE0F VARIATION SELECTOR-16, U+2705 *)
Definition warning_sign : char := 0x26A0%N.
Definition vs16 : char := 0xFE0F%N.
Definition check_mark : char := 0x2705%N.
End Ch.

(** LineTerminator of ECMAScript: LF, CR, LS, PS. *)
Definition isLineTerminator (c : char) : bool :=
  ((c =? 10) || (c =? 13) || (c =? 0x2028) || (c =? 0x2029))%N.

(** WhiteSpace or LineTerminator of ECMAScript: what [\s] matches and what
    [String.prototype.trim] strips. *)
Definition isSpace (c : char) : bool :=
  ((9 <=? c) && (c <=? 13)
   || (c =? 32) || (c =? 0xA0) || (c =? 0x1680)
   || (0x2000 <=? c) && (c <=? 0x200A)
   || (c =? 0x2028) || (c =? 0x2029) || (c =? 0x202F) || (c =? 0x205F)
   || (c =? 0x3000) || (c =? 0xFEFF))%N.

(** What [\w] matches without the [u] flag: [A-Za-z0-9_]. *)
Definition isWord (c : char) : bool :=
  ((97 <=? c) && (c <=? 122) || (65 <=? c) && (c <=? 90)
   || (48 <=? c) && (c <=? 57) || (c =? 95))%N.

(** What [.] matches without the [s] flag. *)
Definition isDot (c : char) : bool := negb (isLineTerminator c).

(** Canonicalize of ECMAScript for an [i] pattern without [u], on the basic
    Latin range.  A code unit of 128 or more never canonicalizes to one below
    128, so against the ASCII literals of this program the comparison of
    canonical forms is decided by the ASCII letters alone. *)
Definition canonicalize (c : char) : char :=
  if ((97 <=? c) && (c <=? 122))%N then (c - 32)%N else c.

Fixpoint dropWhile (f : char -> bool) (s : jsstring) : jsstring :=
  match s with
  | [] => []
  | c :: s' => if f c then dropWhile f s' else s
  end.

Fixpoint takeWhile (f : char -> bool) (s : jsstring) : jsstring :=
  match s with
  | [] => []
  | c :: s' => if f c then c :: takeWhile f s' else []
  end.

(** [s.trim()] *)
Definition trim (s : jsstring) : jsstring :=
  rev (dropWhile isSpace (rev (dropWhile isSpace s))).

(** [s.startsWith(pre)] *)
Fixpoint startsWith (s pre : jsstring) {struct pre} : bool :=
  match pre, s with
  | [], _ => true
  | _ :: _, [] => false
  | a :: pre', b :: s' => (a =? b)%N && startsWith s' pre'
  end.

(** [s.endsWith(suf)] *)
Definition endsWith (s suf : jsstring) : bool :=
  startsWith (rev s) (rev suf).

(** [s === t] on strings *)
Fixpoint strEq (s t : jsstring) : bool :=
  match s, t with
  | [], [] => true
  | a :: s', b :: t' => (a =? b)%N && strEq s' t'
  | _, _ => false
  end.

(** [s.split(sep)] for a one-unit separator: never empty, one piece more
    than there are separators. *)
Fixpoint split (sep : char) (s : jsstring) : list jsstring :=
  match s with
  | [] => [[]]
  | c :: s' =>
      if (c =? sep)%N then [] :: split sep s'
      else match split sep s' with
           | l :: ls => (c :: l) :: ls
           | [] => [[c]]
           end
  end.

(** [parts.join(sep)] *)
Fixpoint join (sep : jsstring) (parts : list jsstring) : jsstring :=
  match parts with
  | [] => []
  | [p] => p
  | p :: ps => p ++ sep ++ join sep ps
  end.

(** [s.includes(w)] *)
Fixpoint includes (s w : jsstring) : bool :=
  startsWith s w || match s with
                    | [] => false
                    | _ :: s' => includes s' w
                    end.

Fixpoint uint_chars (d : Decimal.uint) : jsstring :=
  match d with
  | Decimal.Nil => []
  | Decimal.D0 d => 48%N :: uint_chars d
  | Decimal.D1 d => 49%N :: uint_chars d
  | Decimal.D2 d => 50%N :: uint_chars d
  | Decimal.D3 d => 51%N :: uint_chars d
  | Decimal.D4 d => 52%N :: uint_chars d
  | Decimal.D5 d => 53%N :: uint_chars d
  | Decimal.D6 d => 54%N :: uint_chars d
  | Decimal.D7 d => 55%N :: uint_chars d
  | Decimal.D8 d => 56%N :: uint_chars d
  | Decimal.D9 d => 57%N :: uint_chars d
  end.

(** A non-negative integer inside a template literal: its decimal digits. *)
Definition numberToString (n : nat) : jsstring := uint_chars (Nat.to_uint n).

(** ** Regular expressions *)

(** The pattern syntax the four expressions of the source use.  Groups only
    record captures, which the program never reads, so they leave no node. *)
Inductive regex : Type :=
| Eps
| Chr (c : char)
| Dot
| Space
| Word
| Bol
| Seq (r1 r2 : regex)
| Alt (r1 r2 : regex)
| Star (r : regex).

(** [r+] is one mandatory iteration followed by [r*]; [r?] is [r|()] . *)
Definition Plus (r : regex) : regex := Seq r (Star r).
Definition Opt (r : regex) : regex := Alt r Eps.

Definition seqs (rs : list regex) : regex := fold_right Seq Eps rs.
Fixpoint alts (r : regex) (rs : list regex) : regex :=
  match rs with
  | [] => r
  | r' :: rs' => Alt r (alts r' rs')
  end.
Definition Lit (s : string) : regex := seqs (map Chr (lit s)).

(** A RegExp object with the [g] flag, which all four have. *)
Record RegExp : Type := mkRegExp {
  pattern : regex;
  ignoreCase : bool;
  multiline : bool
}.

(** A position in the input is the code unit before it (none at index 0)
    and the units from it on.  A continuation is called at the position a
    pattern ends at and answers the units left after the whole match; a
    matcher runs a pattern from a position, with the continuation for what
    follows it. *)
Definition cont := option char -> jsstring -> option jsstring.
Definition matcher := option char -> jsstring -> cont -> option jsstring.

Section Engine.
Variables (icase mline : bool).

Definition sameChar (a b : char) : bool :=
  if icase then (canonicalize a =? canonicalize b)%N else (a =? b)%N.

Definition atLineStart (p : option char) : bool :=
  match p with
  | None => true
  | Some c => mline && isLineTerminator c
  end.

(** CharacterSetMatcher: consume one unit of the class. *)
Definition oneOf (f : char -> bool) : matcher := fun _ s k =>
  match s with
  | c :: s' => if f c then k (Some c) s' else None
  | [] => None
  end.

(** RepeatMatcher with min 0 and no max, greedy: try one more iteration
    first, and refuse an iteration that consumed nothing; otherwise go on
    with the continuation.  [n] bounds the iterations still possible. *)
Fixpoint repeatMatcher (body : matcher) (k : cont) (n : nat)
         (p : option char) (s : jsstring) : option jsstring :=
  match n with
  | O => k p s
  | S n' =>
      match body p s (fun p' s' =>
              if length s' <? length s then repeatMatcher body k n' p' s'
              else None) with
      | Some e => Some e
      | None => k p s
      end
  end.

Fixpoint compile (r : regex) : matcher :=
  match r with
  | Eps => fun p s k => k p s
  | Chr c => oneOf (sameChar c)
  | Dot => oneOf isDot
  | Space => oneOf isSpace
  | Word => oneOf isWord
  | Bol => fun p s k => if atLineStart p then k p s else None
  | Seq r1 r2 => fun p s k =>
      compile r1 p s (fun p' s' => compile r2 p' s' k)
  | Alt r1 r2 => fun p s k =>
      match compile r1 p s k with
      | Some e => Some e
      | None => compile r2 p s k
      end
  | Star r' => fun p s k => repeatMatcher (compile r') k (length s) p s
  end.

(** One attempt at the current position: the units left after the match. *)
Definition matchAt (r : regex) (p : option char) (s : jsstring)
  : option jsstring :=
  compile r p s (fun _ s' => Some s').
End Engine.

Definition matchHere (re : RegExp)
  : option char -> jsstring -> option jsstring :=
  matchAt (ignoreCase re) (multiline re) (pattern re).

(** A match: its [index] and the matched text [m[0]]. *)
Definition jsmatch : Type := (nat * jsstring)%type.

(** The loop of a global expression over the input.  [i] is the index of the
    current position and [skip] the number of units still inside the last
    match; the search resumes at the end of a match, one unit further when
    the match was empty. *)
Fixpoint scan (f : option char -> jsstring -> option jsstring)
         (i skip : nat) (p : option char) (s : jsstring) {struct s}
  : list jsmatch :=
  match skip with
  | S skip' =>
      match s with
      | [] => []
      | c :: s' => scan f (S i) skip' (Some c) s'
      end
  | O =>
      match f p s with
      | Some e =>
          let len := length s - length e in
          (i, firstn len s) ::
          match s with
          | [] => []
          | c :: s' => scan f (S i) (pred len) (Some c) s'
          end
      | None =>
          match s with
          | [] => []
          | c :: s' => scan f (S i) 0 (Some c) s'
          end
      end
  end.

(** [content.matchAll(re)], as the array [Array.from] makes of it. *)
Definition matchAll (re : RegExp) (content : jsstring) : list jsmatch :=
  scan (matchHere re) 0 0 None content.

(** [content.match(re)] for a global [re]: [null] when nothing matches,
    otherwise the array of the matched texts. *)
Definition String_match (re : RegExp) (content : jsstring)
  : option (list jsstring) :=
  match matchAll re content with
  | [] => None
  | ms => Some (map snd ms)
  end.

(** [v || []] *)
Definition orEmpty (v : option (list jsstring)) : list jsstring :=
  match v with
  | Some a => a
  | None => []
  end.

(** ** The expressions of the source *)

(** [/(?:function\s+\w+|\w+\s*=\s*\(.*\)\s*=>|\w+\s*:\s*function|^\s*\w+\(.*\)\s*{)/gm] *)
Definition functionRegex : RegExp :=
  mkRegExp
    (alts (seqs [Lit "function"; Plus Space; Plus Word])
          [seqs [Plus Word; Star Space; Chr Ch.eq; Star Space;
                 Chr Ch.lparen; Star Dot; Chr Ch.rparen; Star Space; Lit "=>"];
           seqs [Plus Word; Star Space; Chr Ch.colon; Star Space;
                 Lit "function"];
           seqs [Bol; Star Space; Plus Word; Chr Ch.lparen; Star Dot;
                 Chr Ch.rparen; Star Space; Chr Ch.lbrace]])
    false true.

(** [/(?:const|let|var)\s+\w+\s*=\s*\(.*\)\s*=>/gm] *)
Definition arrowFunctionRegex : RegExp :=
  mkRegExp
    (seqs [alts (Lit "const") [Lit "let"; Lit "var"]; Plus Space;
           Plus Word; Star Space; Chr Ch.eq; Star Space;
           Chr Ch.lparen; Star Dot; Chr Ch.rparen; Star Space; Lit "=>"])
    false true.

(** [/function\s+\w+\s*\(.*\)\s*{/gm] *)
Definition regularFunctionRegex : RegExp :=
  mkRegExp
    (seqs [Lit "function"; Plus Space; Plus Word; Star Space; Chr Ch.lparen;
           Star Dot; Chr Ch.rparen; Star Space; Chr Ch.lbrace])
    false true.

(** The expression of [findTodos], flags [gi]: a group for one of the
    leaders [//], [#] and [*]; [\s*]; a group for [TODO|FIXME]; [:?]; [\s*];
    a group for [.*]. *)
Definition todoRegex : RegExp :=
  mkRegExp
    (seqs [alts (Lit "//") [Chr Ch.hash; Chr Ch.star]; Star Space;
           Alt (Lit "TODO") (Lit "FIXME"); Opt (Chr Ch.colon); Star Space;
           Star Dot])
    true false.

(** ** The three extractors *)

(** The filter of [countLines]: a string is truthy when it is not empty. *)
Definition isCodeLine (line : jsstring) : bool :=
  let trimmed := trim line in
  negb (strEq trimmed [])
  && negb (startsWith trimmed (lit "//"))
  && negb (startsWith trimmed (lit "/*"))
  && negb (startsWith trimmed (lit "*"))
  && negb (startsWith trimmed (lit "import "))
  && negb (startsWith trimmed (lit "export ")).

Definition countLines (content : jsstring) : nat :=
  length (filter isCodeLine (split Ch.lf content)).

Definition countMethods (content : jsstring) : nat :=
  let functionMatches :=
    length (orEmpty (String_match functionRegex content)) in
  let arrowMatches :=
    length (orEmpty (String_match arrowFunctionRegex content)) in
  let regularMatches :=
    length (orEmpty (String_match regularFunctionRegex content)) in
  functionMatches + arrowMatches + regularMatches.

Definition findTodos (content : jsstring) : list jsstring :=
  map (fun m : jsmatch => trim (snd m)) (matchAll todoRegex content).

(** ** The pull-request handler *)

(** An entry of [filesChanged.data]: [patch] is absent for a file without a
    textual diff. *)
Record ChangedFile : Type := mkFile {
  filename : jsstring;
  patch : option jsstring
}.

(** A string is truthy when it is not empty, [undefined] is falsy. *)
Definition truthy (v : option jsstring) : bool :=
  match v with
  | Some (_ :: _) => true
  | _ => false
  end.

(** The condition guarding the analysis of a file. *)
Definition eligible (file : ChangedFile) : bool :=
  (endsWith (filename file) (lit ".js")
   || endsWith (filename file) (lit ".tsx")
   || endsWith (filename file) (lit ".ts"))
  && truthy (patch file).

Definition fire : jsstring := [0xD83D; 0xDD25]%N.
Definition brain : jsstring := [0xD83E; 0xDDE0]%N.
Definition robot : jsstring := [0xD83E; 0xDD16]%N.
Definition memo : jsstring := [0xD83D; 0xDCDD]%N.
Definition warningEmoji : jsstring := [Ch.warning_sign; Ch.vs16].
Definition nl : jsstring := [Ch.lf].

Definition locIssue (filename : jsstring) (loc : nat) : jsstring :=
  lit "- `" ++ filename ++ lit "`: LOC = " ++ numberToString loc
  ++ lit " " ++ fire.

Definition nomIssue (filename : jsstring) (nom : nat) : jsstring :=
  lit "- `" ++ filename ++ lit "`: Method Count = " ++ numberToString nom
  ++ lit " " ++ brain.

Definition todoEntry (filename todo : jsstring) : jsstring :=
  lit "- `" ++ filename ++ lit "`: " ++ todo.

(** The writes of the handler to its two arrays, in program order. *)
Inductive push : Type :=
| PushIssue (line : jsstring)
| PushTodo (line : jsstring).

(** The maintainability checks on the content of one file. *)
Definition checks (filename content : jsstring) : list push :=
  let loc := countLines content in
  let nom := countMethods content in
  let todos := findTodos content in
  (if 200 <? loc then [PushIssue (locIssue filename loc)] else [])
  ++ (if 8 <? nom then [PushIssue (nomIssue filename nom)] else [])
  ++ (if 0 <? length todos
      then map (fun todo => PushTodo (todoEntry filename todo)) todos
      else []).

Inductive logEntry : Type :=
| LogAnalyzing (filename : jsstring) (loc nom todos : nat)
               (content : jsstring) (methods todoMatches : list jsstring)
| LogError (filename message : jsstring).

Definition analyzingEntry (filename content : jsstring) : logEntry :=
  LogAnalyzing filename (countLines content) (countMethods content)
    (length (findTodos content))
    (firstn 200 content ++ lit "...")
    (orEmpty (String_match functionRegex content))
    (orEmpty (String_match todoRegex content)).

(** What the handler has accumulated for the comment. *)
Record findings : Type := mkFindings {
  issues : list jsstring;
  todoComments : list jsstring;
  pkgJsonModified : bool;
  pkgLockModified : bool
}.

Definition noFindings : findings := mkFindings [] [] false false.

Definition applyPush (f : findings) (a : push) : findings :=
  match a with
  | PushIssue line =>
      mkFindings (issues f ++ [line]) (todoComments f)
                 (pkgJsonModified f) (pkgLockModified f)
  | PushTodo line =>
      mkFindings (issues f) (todoComments f ++ [line])
                 (pkgJsonModified f) (pkgLockModified f)
  end.

(** The package bookkeeping at the end of the loop body. *)
Definition bookkeeping (f : findings) (name : jsstring) : findings :=
  let f1 :=
    if strEq name (lit "package.json")
    then mkFindings (issues f) (todoComments f) true (pkgLockModified f)
    else f in
  if strEq name (lit "package-lock.json")
  then mkFindings (issues f1) (todoComments f1) (pkgJsonModified f1) true
  else f1.

Section Handler.
(** The state of the hosting service, and the content request at the head
    commit together with the base64 decoding of its answer: either the text
    of the file or the message of the error thrown. *)
Variable World : Type.
Variable getContent : jsstring -> World -> (jsstring + jsstring) * World.

(** The state of the loop over the changed files: the accumulated
    findings, the log, the paths requested so far and the service. *)
Record loopState : Type := mkLoop {
  found : findings;
  log : list logEntry;
  requested : list jsstring;
  world : World
}.

(** The [try] block of the loop body, and its [catch]. *)
Definition analyzeFile (st : loopState) (name : jsstring) : loopState :=
  match getContent name (world st) with
  | (inr content, w) =>
      mkLoop (fold_left applyPush (checks name content) (found st))
             (log st ++ [analyzingEntry name content])
             (requested st ++ [name]) w
  | (inl message, w) =>
      mkLoop (found st) (log st ++ [LogError name message])
             (requested st ++ [name]) w
  end.

(** The body of the loop. *)
Definition processFile (st : loopState) (file : ChangedFile) : loopState :=
  let st1 := if eligible file then analyzeFile st (filename file) else st in
  mkLoop (bookkeeping (found st1) (filename file))
         (log st1) (requested st1) (world st1).

Definition processFiles (st : loopState) (files : list ChangedFile)
  : loopState :=
  fold_left processFile files st.

Definition initialState (w : World) : loopState :=
  mkLoop noFindings [] [] w.

Definition aggregate (files : list ChangedFile) (w : World) : loopState :=
  processFiles (initialState w) files.
End Handler.

(** ** The comment body *)

Definition title : jsstring :=
  lit "## " ++ robot ++ lit " PR Maintainability Check" ++ nl ++ nl.

Definition issuesHeading : jsstring :=
  lit "### " ++ warningEmoji ++ lit " Issues Detected:" ++ nl.

Definition noIssuesLine : jsstring :=
  [Ch.check_mark] ++ lit " No major maintainability issues found." ++ nl ++ nl.

Definition lockWarning : jsstring :=
  warningEmoji
  ++ lit " `package.json` was modified but `package-lock.json` was not. Ensure lockfile is up to date!"
  ++ nl ++ nl.

Definition todoHeading : jsstring :=
  lit "### " ++ memo ++ lit " TODO / FIXME Found:" ++ nl.

Definition reminder : jsstring :=
  nl ++ lit "Please address these before merging." ++ nl.

Definition issuesSection (f : findings) : jsstring :=
  if 0 <? length (issues f)
  then issuesHeading ++ join nl (issues f) ++ nl ++ nl
  else noIssuesLine.

Definition todoSection (f : findings) : jsstring :=
  todoHeading ++ join nl (todoComments f) ++ reminder.

(** The strings the handler appends to [body], in order. *)
Definition emitted (f : findings) : list jsstring :=
  [title; issuesSection f]
  ++ (if pkgJsonModified f && negb (pkgLockModified f)
      then [lockWarning] else [])
  ++ (if 0 <? length (todoComments f) then [todoSection f] else []).

Definition compose (f : findings) : jsstring :=
  let body := title in
  let body := body ++ issuesSection f in
  let body :=
    if pkgJsonModified f && negb (pkgLockModified f)
    then body ++ lockWarning else body in
  let body :=
    if 0 <? length (todoComments f)
    then body ++ todoSection f else body in
  body.

(** ** The handler of a pull-request event *)

(** What the handler reads of the event: the installation id when there is
    one, the pull request and its repository, and the text
    [JSON.stringify(context.payload, null, 2)] that goes into the log. *)
Record prEvent : Type := mkEvent {
  installationId : option N;
  prNumber : N;
  repoOwner : jsstring;
  repoName : jsstring;
  repoFullName : jsstring;
  headSha : jsstring;
  payloadText : jsstring
}.

(** [!context.payload.installation?.id]: no installation, no id, or the
    falsy id 0. *)
Definition missingInstallation (ev : prEvent) : bool :=
  match installationId ev with
  | Some id => (id =? 0)%N
  | None => true
  end.

Inductive handlerLog : Type :=
| LogReceived (payload : jsstring)
| LogMissingInstallation (payload : jsstring)
| LogAnalyzingPR (number : N) (fullName : jsstring)
| LogFile (entry : logEntry)
| LogCommented (number : N)
| LogProcessingError (message : jsstring) (number : N)
                     (fullName payload : jsstring).

(** How the handler ends: the early [return], the normal end, or the error
    thrown again by the outer [catch]. *)
Inductive outcome : Type :=
| Skipped
| Done
| Thrown (message : jsstring).

Section EventHandler.
Variable World : Type.
(** [octokit.rest.pulls.listFiles] with owner, repository and number. *)
Variable listFiles :
  jsstring -> jsstring -> N -> World -> (jsstring + list ChangedFile) * World.
(** [octokit.rest.repos.getContent] with owner, repository, ref and path,
    followed by the base64 decoding. *)
Variable getContentAt :
  jsstring -> jsstring -> jsstring -> jsstring -> World
  -> (jsstring + jsstring) * World.
(** [octokit.rest.issues.createComment] with owner, repository, number and
    body. *)
Variable createComment :
  jsstring -> jsstring -> N -> jsstring -> World -> (jsstring + unit) * World.

(** The result of one run: how it ended, what it logged, the paths whose
    content it requested, the bodies it passed to [createComment], and the
    service afterwards. *)
Record run : Type := mkRun {
  ended : outcome;
  logged : list handlerLog;
  fetched : list jsstring;
  posted : list jsstring;
  service : World
}.

Definition processingError (ev : prEvent) (message : jsstring) : handlerLog :=
  LogProcessingError message (prNumber ev) (repoFullName ev) (payloadText ev).

Definition handlePullRequest (ev : prEvent) (w : World) : run :=
  let log0 := [LogReceived (payloadText ev)] in
  if missingInstallation ev then
    mkRun Skipped (log0 ++ [LogMissingInstallation (payloadText ev)]) [] [] w
  else
    let log1 := log0 ++ [LogAnalyzingPR (prNumber ev) (repoFullName ev)] in
    match listFiles (repoOwner ev) (repoName ev) (prNumber ev) w with
    | (inl message, w1) =>
        mkRun (Thrown message) (log1 ++ [processingError ev message]) [] [] w1
    | (inr files, w1) =>
        let st :=
          aggregate (getContentAt (repoOwner ev) (repoName ev) (headSha ev))
                    files w1 in
        let body := compose (found st) in
        let log2 := log1 ++ map LogFile (log st) in
        match createComment (repoOwner ev) (repoName ev) (prNumber ev) body
                            (world st) with
        | (inr _, w2) =>
            mkRun Done (log2 ++ [LogCommented (prNumber ev)])
                  (requested st) [body] w2
        | (inl message, w2) =>
            mkRun (Thrown message) (log2 ++ [processingError ev message])
                  (requested st) [body] w2
        end
    end.
End EventHandler.

(** * Notions the properties are stated with *)

(** ** Writes and example inputs *)

(** The lines a list of writes adds to each array. *)
Fixpoint pushedIssues (l : list push) : list jsstring :=
  match l with
  | [] => []
  | PushIssue line :: l' => line :: pushedIssues l'
  | PushTodo _ :: l' => pushedIssues l'
  end.

Fixpoint pushedTodos (l : list push) : list jsstring :=
  match l with
  | [] => []
  | PushIssue _ :: l' => pushedTodos l'
  | PushTodo line :: l' => line :: pushedTodos l'
  end.

(** The changed files of the aggregation example. *)
Definition exampleFiles : list ChangedFile :=
  [mkFile (lit "a.js") (Some (lit "@@ -1 +1 @@"));
   mkFile (lit "b.png") (Some (lit "@@ -1 +1 @@"));
   mkFile (lit "package.json") (Some (lit "@@ -1 +1 @@"));
   mkFile (lit "package-lock.json") None].

(** Nine one-line methods followed by 241 plain statements. *)
Definition largeContent : jsstring :=
  join nl (List.repeat (lit "foo() {") 9 ++ List.repeat (lit "x++;") 241).

(** Three eligible files; the content of the second cannot be fetched. *)
Definition threeFiles : list ChangedFile :=
  [mkFile (lit "a.js") (Some (lit "@@"));
   mkFile (lit "b.ts") (Some (lit "@@"));
   mkFile (lit "c.tsx") (Some (lit "@@"))].

Definition secondFails (name : jsstring) (w : unit)
  : (jsstring + jsstring) * unit :=
  if strEq name (lit "b.ts") then (inl (lit "Not Found"), w)
  else (inr (lit "// TODO: tidy up"), w).

Definition arrowLine : jsstring := lit "const f = () => {}".

Definition functionLine : jsstring := lit "function foo() {}".



(** ** Occurrences in the comment body *)

(** [w] occurs in [s] as a run of consecutive units. *)
Definition Infix (w s : jsstring) : Prop := exists a b, s = a ++ w ++ b.


(** ** Counted lines *)

Definition Prefix (p s : jsstring) : Prop := exists r, s = p ++ r.

(** [t] is [line] without its leading and trailing white space. *)
Definition TrimOf (line t : jsstring) : Prop :=
  exists a b,
    line = a ++ t ++ b
    /\ Forall (fun c => isSpace c = true) a
    /\ Forall (fun c => isSpace c = true) b
    /\ (forall c, hd_error t = Some c -> isSpace c = false)
    /\ (forall c, hd_error (rev t) = Some c -> isSpace c = false).

(** The lines the size metric counts, in the words of the description: the
    trimmed line is not empty and starts with none of the five prefixes. *)
Definition CountedLine (line : jsstring) : Prop :=
  exists t,
    TrimOf line t
    /\ t <> []
    /\ ~ Prefix (lit "//") t
    /\ ~ Prefix (lit "/*") t
    /\ ~ Prefix (lit "*") t
    /\ ~ Prefix (lit "import ") t
    /\ ~ Prefix (lit "export ") t.

(** [n] of the lines of [ls] satisfy [P]. *)
Inductive Counts (P : jsstring -> Prop) : list jsstring -> nat -> Prop :=
| Counts_nil : Counts P [] 0
| Counts_yes l ls n : P l -> Counts P ls n -> Counts P (l :: ls) (S n)
| Counts_no l ls n : ~ P l -> Counts P ls n -> Counts P (l :: ls) n.

(** ** What a pattern matches *)

(** The unit before the position reached after reading [m] from a position
    whose previous unit is [p]. *)
Definition lastOf (p : option char) (m : jsstring) : option char :=
  fold_left (fun _ c => Some c) m p.

Section Semantics.
Variables (icase mline : bool).

(** [Matches r p s p' s']: read from the position [(p, s)], the pattern [r]
    can end at the position [(p', s')].  An iteration of a star consumes at
    least one unit. *)
Inductive Matches
  : regex -> option char -> jsstring -> option char -> jsstring -> Prop :=
| M_Eps p s : Matches Eps p s p s
| M_Chr c c' p s :
    sameChar icase c c' = true -> Matches (Chr c) p (c' :: s) (Some c') s
| M_Dot c p s : isDot c = true -> Matches Dot p (c :: s) (Some c) s
| M_Space c p s : isSpace c = true -> Matches Space p (c :: s) (Some c) s
| M_Word c p s : isWord c = true -> Matches Word p (c :: s) (Some c) s
| M_Bol p s : atLineStart mline p = true -> Matches Bol p s p s
| M_Seq r1 r2 p s p1 s1 p2 s2 :
    Matches r1 p s p1 s1 -> Matches r2 p1 s1 p2 s2 ->
    Matches (Seq r1 r2) p s p2 s2
| M_AltL r1 r2 p s p' s' :
    Matches r1 p s p' s' -> Matches (Alt r1 r2) p s p' s'
| M_AltR r1 r2 p s p' s' :
    Matches r2 p s p' s' -> Matches (Alt r1 r2) p s p' s'
| M_Star0 r p s : Matches (Star r) p s p s
| M_StarS r p s p1 s1 p2 s2 :
    Matches r p s p1 s1 -> length s1 < length s ->
    Matches (Star r) p1 s1 p2 s2 ->
    Matches (Star r) p s p2 s2.
End Semantics.

(** The expression matches nowhere in the text. *)
Definition NoMatch (re : RegExp) (T : jsstring) : Prop :=
  forall pre suf p' s',
    T = pre ++ suf ->
    ~ Matches (ignoreCase re) (multiline re) (pattern re)
              (lastOf None pre) suf p' s'.

(** The arrow part both the first and the second expression end with. *)
Definition arrowTail : regex :=
  seqs [Plus Word; Star Space; Chr Ch.eq; Star Space; Chr Ch.lparen; Star Dot;
        Chr Ch.rparen; Star Space; Lit "=>"].

(** The named-function head the first and the third expression start with. *)
Definition functionHead (rest : regex) : regex :=
  Seq (Lit "function") (Seq (Plus Space) (Seq (Plus Word) rest)).

(** ** The todo expression read greedily *)

(** The units after the literal [l] when the text starts with it, compared
    as the flag [i] says. *)
Fixpoint litAt (icase : bool) (l s : jsstring) : option jsstring :=
  match l with
  | [] => Some s
  | a :: l' =>
      match s with
      | c :: s' => if sameChar icase a c then litAt icase l' s' else None
      | [] => None
      end
  end.

Definition afterLit (l : jsstring) (g : jsstring -> option jsstring)
           (s : jsstring) : option jsstring :=
  match litAt true l s with
  | Some s' => g s'
  | None => None
  end.

Definition orElse (a b : option jsstring) : option jsstring :=
  match a with
  | Some e => Some e
  | None => b
  end.

(** After the keyword and the colon: all the white space, then the rest of
    the line. *)
Definition todoTail (s : jsstring) : option jsstring :=
  Some (dropWhile isDot (dropWhile isSpace s)).

Definition todoColon (s : jsstring) : option jsstring :=
  orElse (afterLit (lit ":") todoTail s) (todoTail s).

Definition todoKeyword (s : jsstring) : option jsstring :=
  orElse (afterLit (lit "TODO") todoColon s)
         (afterLit (lit "FIXME") todoColon s).

Definition todoLeader (s : jsstring) : option jsstring :=
  todoKeyword (dropWhile isSpace s).

(** What is left of the text after the todo fragment that starts it. *)
Definition todoAt (s : jsstring) : option jsstring :=
  orElse (afterLit (lit "//") todoLeader s)
         (orElse (afterLit (lit "#") todoLeader s)
                 (afterLit (lit "*") todoLeader s)).

(** ** Todo fragments and where matches lie *)

Definition isLeader (l : jsstring) : Prop :=
  l = lit "//" \/ l = lit "#" \/ l = lit "*".

(** [TODO] or [FIXME], in any mix of upper and lower case. *)
Definition isKeyword (k : jsstring) : Prop :=
  map canonicalize k = lit "TODO" \/ map canonicalize k = lit "FIXME".

(** A comment leader, white space, the keyword, an optional colon, white
    space, and text that stays on its line. *)
Definition TodoFragment (frag : jsstring) : Prop :=
  exists leader ws kw colon ws' text,
    frag = leader ++ ws ++ kw ++ colon ++ ws' ++ text
    /\ isLeader leader
    /\ Forall (fun c => isSpace c = true) ws
    /\ isKeyword kw
    /\ (colon = [] \/ colon = lit ":")
    /\ Forall (fun c => isSpace c = true) ws'
    /\ Forall (fun c => isLineTerminator c = false) text.

(** [m1] ends before [m2] starts. *)
Definition Before (m1 m2 : jsmatch) : Prop :=
  fst m1 + length (snd m1) <= fst m2 /\ fst m1 < fst m2.

(** Every match lies in the text at its index, at or after the position the
    search was resumed from, and is what one attempt returns there. *)
Definition Located (f : option char -> jsstring -> option jsstring)
           (i skip : nat) (p : option char) (s : jsstring)
           (m : jsmatch) : Prop :=
  exists pre post,
    s = pre ++ snd m ++ post
    /\ fst m = i + length pre
    /\ skip <= length pre
    /\ f (lastOf p pre) (snd m ++ post) = Some post.

(** [m] is a todo fragment of [T] lying at its index, and no longer fragment
    starts there. *)
Definition FragmentAt (T : jsstring) (m : jsmatch) : Prop :=
  exists pre post,
    T = pre ++ snd m ++ post
    /\ length pre = fst m
    /\ TodoFragment (snd m)
    /\ forall frag' post',
        snd m ++ post = frag' ++ post' -> TodoFragment frag' ->
        length frag' <= length (snd m).

(** ** Notions of the further properties *)

Definition Suffix (suf s : jsstring) : Prop := exists stem, s = stem ++ suf.

(** The file a log entry of the loop is about. *)
Definition logName (e : logEntry) : jsstring :=
  match e with
  | LogAnalyzing name _ _ _ _ _ _ => name
  | LogError name _ => name
  end.

(** The writes one file leads to when the content request answers [fetch]
    whatever the state of the service. *)
Definition contribution (fetch : jsstring -> jsstring + jsstring)
           (file : ChangedFile) : list push :=
  if eligible file then
    match fetch (filename file) with
    | inr content => checks (filename file) content
    | inl _ => []
    end
  else [].

(** Every match of the pattern reads at least one unit of [cs]. *)
Fixpoint consumesOneOf (cs : list char) (r : regex) : bool :=
  match r with
  | Chr a => existsb (N.eqb a) cs
  | Seq r1 r2 => consumesOneOf cs r1 || consumesOneOf cs r2
  | Alt r1 r2 => consumesOneOf cs r1 && consumesOneOf cs r2
  | _ => false
  end.

(** The number a run of decimal digits stands for. *)
Definition parseDecimal (s : jsstring) : nat :=
  fold_left (fun acc c => 10 * acc + (N.to_nat c - 48)) s 0.

(** A stateless service for the witnesses: every text is the same. *)
Definition quietService (name : jsstring) (w : unit)
  : (jsstring + jsstring) * unit :=
  (inr (lit "// FIXME later"), w).

Definition brokenService (name : jsstring) (w : unit)
  : (jsstring + jsstring) * unit :=
  (inl (lit "Not Found"), w).

(** An issue line is about a requested file and reports a line count above
    200 or a method count above 8 of some text. *)
Definition JustifiedIssue (names : list jsstring) (e : jsstring) : Prop :=
  exists name content,
    In name names
    /\ ((e = locIssue name (countLines content) /\ 200 < countLines content)
        \/ (e = nomIssue name (countMethods content)
            /\ 8 < countMethods content)).

(** A todo entry is about a requested file and quotes a todo of some text. *)
Definition JustifiedTodo (names : list jsstring) (e : jsstring) : Prop :=
  exists name content todo,
    In name names /\ In todo (findTodos content) /\ e = todoEntry name todo.

(** * Properties *)

(** ** The writes of one file *)

Lemma applyPush_fold (l : list push) (f : findings) :
  fold_left applyPush l f =
  mkFindings (issues f ++ pushedIssues l) (todoComments f ++ pushedTodos l)
             (pkgJsonModified f) (pkgLockModified f).
Proof.
  revert f; induction l as [|a l IH]; intros f; simpl.
  - rewrite !app_nil_r. now destruct f.
  - rewrite IH. destruct a; simpl; now rewrite <- app_assoc.
Qed.

Lemma pushedIssues_app (l1 l2 : list push) :
  pushedIssues (l1 ++ l2) = pushedIssues l1 ++ pushedIssues l2.
Proof.
  induction l1 as [|[line|line] l1 IH]; simpl; now rewrite ?IH.
Qed.

Lemma pushedTodos_app (l1 l2 : list push) :
  pushedTodos (l1 ++ l2) = pushedTodos l1 ++ pushedTodos l2.
Proof.
  induction l1 as [|[line|line] l1 IH]; simpl; now rewrite ?IH.
Qed.

Lemma pushedIssues_todos (g : jsstring -> jsstring) (l : list jsstring) :
  pushedIssues (map (fun t => PushTodo (g t)) l) = [].
Proof. induction l; simpl; auto. Qed.

Lemma pushedTodos_todos (g : jsstring -> jsstring) (l : list jsstring) :
  pushedTodos (map (fun t => PushTodo (g t)) l) = map g l.
Proof. induction l; simpl; now rewrite ?IHl. Qed.

Lemma checks_todos_tail (name content : jsstring) :
  (if 0 <? length (findTodos content)
   then map (fun todo => PushTodo (todoEntry name todo)) (findTodos content)
   else [])
  = map (fun todo => PushTodo (todoEntry name todo)) (findTodos content).
Proof. now destruct (findTodos content). Qed.

(** ** The loop over the changed files *)

Section HandlerFacts.
Variable World : Type.
Variable getContent : jsstring -> World -> (jsstring + jsstring) * World.

Lemma processFiles_app st l1 l2 :
  processFiles getContent st (l1 ++ l2)
  = processFiles getContent (processFiles getContent st l1) l2.
Proof. apply fold_left_app. Qed.

Lemma processFiles_cons st file l :
  processFiles getContent st (file :: l)
  = processFiles getContent (processFile getContent st file) l.
Proof. reflexivity. Qed.

Lemma analyzeFile_requested st name :
  requested (analyzeFile getContent st name) = requested st ++ [name].
Proof.
  unfold analyzeFile.
  now destruct (getContent name (world st)) as [[message|content] w].
Qed.

Lemma analyzeFile_flags st name :
  pkgJsonModified (found (analyzeFile getContent st name))
  = pkgJsonModified (found st)
  /\ pkgLockModified (found (analyzeFile getContent st name))
     = pkgLockModified (found st).
Proof.
  unfold analyzeFile.
  destruct (getContent name (world st)) as [[message|content] w]; simpl;
    [|rewrite applyPush_fold]; auto.
Qed.

Lemma bookkeeping_flags f name :
  pkgJsonModified (bookkeeping f name)
  = pkgJsonModified f || strEq name (lit "package.json")
  /\ pkgLockModified (bookkeeping f name)
    = pkgLockModified f || strEq name (lit "package-lock.json").
Proof.
  unfold bookkeeping.
  destruct (strEq name (lit "package.json"));
    destruct (strEq name (lit "package-lock.json")); simpl;
    rewrite ?orb_true_r, ?orb_false_r; auto.
Qed.

Lemma bookkeeping_lines f name :
  issues (bookkeeping f name) = issues f
  /\ todoComments (bookkeeping f name) = todoComments f.
Proof.
  unfold bookkeeping.
  destruct (strEq name (lit "package.json"));
    destruct (strEq name (lit "package-lock.json")); simpl; auto.
Qed.

Lemma processFile_requested st file :
  requested (processFile getContent st file)
  = requested st ++ (if eligible file then [filename file] else []).
Proof.
  unfold processFile; simpl.
  destruct (eligible file).
  - apply analyzeFile_requested.
  - now rewrite app_nil_r.
Qed.

Lemma processFile_flags st file :
  pkgJsonModified (found (processFile getContent st file))
  = pkgJsonModified (found st) || strEq (filename file) (lit "package.json")
  /\ pkgLockModified (found (processFile getContent st file))
    = pkgLockModified (found st)
      || strEq (filename file) (lit "package-lock.json").
Proof.
  unfold processFile; simpl.
  destruct (bookkeeping_flags
              (found (if eligible file
                      then analyzeFile getContent st (filename file)
                      else st)) (filename file)) as [-> ->].
  destruct (eligible file); auto.
  now destruct (analyzeFile_flags st (filename file)) as [-> ->].
Qed.

Lemma processFiles_requested files : forall st,
  requested (processFiles getContent st files)
  = requested st ++ map filename (filter eligible files).
Proof.
  induction files as [|file files IH]; intros st.
  - simpl. now rewrite app_nil_r.
  - rewrite processFiles_cons, IH, processFile_requested. simpl.
    destruct (eligible file); simpl; now rewrite <- app_assoc.
Qed.

Lemma processFiles_flags files : forall st,
  pkgJsonModified (found (processFiles getContent st files))
  = pkgJsonModified (found st)
    || existsb (fun file => strEq (filename file) (lit "package.json")) files
  /\ pkgLockModified (found (processFiles getContent st files))
    = pkgLockModified (found st)
      || existsb (fun file => strEq (filename file) (lit "package-lock.json"))
                 files.
Proof.
  induction files as [|file files IH]; intros st.
  - simpl. now rewrite !orb_false_r.
  - rewrite processFiles_cons.
    destruct (IH (processFile getContent st file)) as [-> ->].
    destruct (processFile_flags st file) as [-> ->]. simpl.
    now rewrite !orb_assoc.
Qed.
End HandlerFacts.

(** ** Aggregation over the example file list *)

Section Aggregation.
Variable World : Type.
Variable getContent : jsstring -> World -> (jsstring + jsstring) * World.

(** C1, as amended.  For every file list the content is requested for the
    eligible files only, in order, while the two package flags are decided by
    the file names alone, whatever the extension and whether or not a patch is
    present.  For the example list only [a.js] is analyzed and both flags are
    set: [package-lock.json] is listed, so [pkgLockModified] is true. *)
Theorem aggregate_example_files (w : World) :
  (forall files,
      let st := aggregate getContent files w in
      requested st = map filename (filter eligible files)
      /\ pkgJsonModified (found st)
         = existsb (fun file => strEq (filename file) (lit "package.json")) files
      /\ pkgLockModified (found st)
         = existsb (fun file => strEq (filename file) (lit "package-lock.json"))
                   files)
  /\ requested (aggregate getContent exampleFiles w) = [lit "a.js"]
  /\ pkgJsonModified (found (aggregate getContent exampleFiles w)) = true
  /\ pkgLockModified (found (aggregate getContent exampleFiles w)) = true.
Proof.
  assert (G : forall files,
      let st := aggregate getContent files w in
      requested st = map filename (filter eligible files)
      /\ pkgJsonModified (found st)
         = existsb (fun file => strEq (filename file) (lit "package.json")) files
      /\ pkgLockModified (found st)
         = existsb (fun file => strEq (filename file) (lit "package-lock.json"))
                   files).
  { intros files st. subst st. unfold aggregate.
    rewrite processFiles_requested.
    destruct (processFiles_flags getContent files (initialState w)) as [-> ->].
    auto. }
  split; [exact G|].
  destruct (G exampleFiles) as (-> & -> & ->).
  repeat split.
Qed.
End Aggregation.

(** C1, as stated, fails: on the example list the lock flag is set. *)
Lemma aggregate_example_lockfile_set :
  let st := aggregate (fun _ (w : unit) => (inr (lit "let x = 1;"), w))
                      exampleFiles tt in
  requested st = [lit "a.js"]
  /\ pkgJsonModified (found st) = true
  /\ pkgLockModified (found st) = true
  /\ (pkgLockModified (found st) = false -> False).
Proof. vm_compute. repeat split; discriminate. Qed.

(** ** The issue checks of one file *)

(** C5.  A file whose content has 250 counted lines and 9 counted methods
    makes the handler write exactly two issue lines, the size line before the
    method line, and only then its todo entries, one per finding. *)
Theorem checks_large_file (name content : jsstring) :
  countLines content = 250 ->
  countMethods content = 9 ->
  checks name content
  = PushIssue (lit "- `" ++ name ++ lit "`: LOC = 250 " ++ fire)
    :: PushIssue (lit "- `" ++ name ++ lit "`: Method Count = 9 " ++ brain)
    :: map (fun todo => PushTodo (lit "- `" ++ name ++ lit "`: " ++ todo))
           (findTodos content)
  /\ forall f,
      issues (fold_left applyPush (checks name content) f)
      = issues f ++ [locIssue name 250; nomIssue name 9]
      /\ todoComments (fold_left applyPush (checks name content) f)
         = todoComments f ++ map (todoEntry name) (findTodos content).
Proof.
  intros Hloc Hnom.
  assert (E : checks name content
              = PushIssue (locIssue name 250) :: PushIssue (nomIssue name 9)
                :: map (fun todo => PushTodo (todoEntry name todo))
                       (findTodos content)).
  { unfold checks. rewrite checks_todos_tail, Hloc, Hnom. reflexivity. }
  split.
  - exact E.
  - intros f. rewrite applyPush_fold, E. simpl.
    rewrite pushedIssues_todos, pushedTodos_todos. auto.
Qed.

(** The checks on a text of 250 counted lines and 9 counted methods. *)
Lemma checks_large_file_witness :
  countLines largeContent = 250 /\ countMethods largeContent = 9
  /\ pushedIssues (checks (lit "a.js") largeContent)
     = [lit "- `a.js`: LOC = 250 " ++ fire;
        lit "- `a.js`: Method Count = 9 " ++ brain].
Proof.
  assert (Hloc : countLines largeContent = 250) by (vm_compute; reflexivity).
  assert (Hnom : countMethods largeContent = 9) by (vm_compute; reflexivity).
  split; [exact Hloc|]. split; [exact Hnom|].
  destruct (@checks_large_file (lit "a.js") largeContent Hloc Hnom) as [E _].
  rewrite E. cbn [pushedIssues].
  rewrite (pushedIssues_todos
             (fun todo => lit "- `" ++ lit "a.js" ++ lit "`: " ++ todo)).
  reflexivity.
Defined.

(** ** A failing content request *)

Section FetchFailure.
Variable World : Type.
Variable getContent : jsstring -> World -> (jsstring + jsstring) * World.

Lemma processFile_failure st file message w' :
  eligible file = true ->
  getContent (filename file) (world st) = (inl message, w') ->
  processFile getContent st file
  = mkLoop (bookkeeping (found st) (filename file))
           (log st ++ [LogError (filename file) message])
           (requested st ++ [filename file]) w'.
Proof.
  intros He Hg. unfold processFile, analyzeFile. now rewrite He, Hg.
Qed.

Lemma processFile_success st file content w' :
  eligible file = true ->
  getContent (filename file) (world st) = (inr content, w') ->
  issues (found (processFile getContent st file))
  = issues (found st) ++ pushedIssues (checks (filename file) content)
  /\ todoComments (found (processFile getContent st file))
     = todoComments (found st) ++ pushedTodos (checks (filename file) content)
  /\ log (processFile getContent st file)
     = log st ++ [analyzingEntry (filename file) content].
Proof.
  intros He Hg. unfold processFile, analyzeFile. rewrite He, Hg. simpl.
  destruct (bookkeeping_lines
              (fold_left applyPush (checks (filename file) content) (found st))
              (filename file)) as [-> ->].
  rewrite applyPush_fold. auto.
Qed.

Lemma processFile_extends st file :
  exists i t lg,
    issues (found (processFile getContent st file)) = issues (found st) ++ i
    /\ todoComments (found (processFile getContent st file))
       = todoComments (found st) ++ t
    /\ log (processFile getContent st file) = log st ++ lg.
Proof.
  unfold processFile. simpl.
  destruct (bookkeeping_lines
              (found (if eligible file
                      then analyzeFile getContent st (filename file) else st))
              (filename file)) as [-> ->].
  destruct (eligible file).
  - unfold analyzeFile.
    destruct (getContent (filename file) (world st)) as [[message|content] w];
      simpl.
    + exists [], [], [LogError (filename file) message].
      now rewrite !app_nil_r.
    + rewrite applyPush_fold. simpl.
      exists (pushedIssues (checks (filename file) content)),
             (pushedTodos (checks (filename file) content)),
             [analyzingEntry (filename file) content]. auto.
  - exists [], [], []. now rewrite !app_nil_r.
Qed.

Lemma processFiles_extends files : forall st,
  exists i t lg,
    issues (found (processFiles getContent st files)) = issues (found st) ++ i
    /\ todoComments (found (processFiles getContent st files))
       = todoComments (found st) ++ t
    /\ log (processFiles getContent st files) = log st ++ lg.
Proof.
  induction files as [|file files IH]; intros st.
  - exists [], [], []. simpl. now rewrite !app_nil_r.
  - rewrite processFiles_cons.
    destruct (IH (processFile getContent st file))
      as (i & t & lg & -> & -> & ->).
    destruct (processFile_extends st file) as (i' & t' & lg' & -> & -> & ->).
    exists (i' ++ i), (t' ++ t), (lg' ++ lg). now rewrite !app_assoc.
Qed.

(** C8.  When the content request of an eligible file fails, the loop goes
    on: the failure is logged, the arrays stay as they were, and the files
    after it are processed from that state; each later eligible file whose
    content arrives adds its issues and todo entries and its log entry to the
    final result. *)
Theorem fetch_failure_is_skipped st pre file post message w' :
  eligible file = true ->
  getContent (filename file) (world (processFiles getContent st pre))
  = (inl message, w') ->
  let before := processFiles getContent st pre in
  let after :=
    mkLoop (bookkeeping (found before) (filename file))
           (log before ++ [LogError (filename file) message])
           (requested before ++ [filename file]) w' in
  let final := processFiles getContent st (pre ++ file :: post) in
  final = processFiles getContent after post
  /\ issues (found after) = issues (found before)
  /\ todoComments (found after) = todoComments (found before)
  /\ In (LogError (filename file) message) (log final)
  /\ forall mid g rest content w'',
      post = mid ++ g :: rest ->
      eligible g = true ->
      getContent (filename g) (world (processFiles getContent after mid))
      = (inr content, w'') ->
      exists i1 i2 t1 t2,
        issues (found final)
        = issues (found before) ++ i1
          ++ pushedIssues (checks (filename g) content) ++ i2
        /\ todoComments (found final)
           = todoComments (found before) ++ t1
             ++ pushedTodos (checks (filename g) content) ++ t2
        /\ In (analyzingEntry (filename g) content) (log final).
Proof.
  intros He Hg before after final.
  assert (E : final = processFiles getContent after post).
  { subst final. rewrite processFiles_app, processFiles_cons.
    now rewrite (processFile_failure _ _ He Hg). }
  assert (Hi : issues (found after) = issues (found before))
    by apply bookkeeping_lines.
  assert (Ht : todoComments (found after) = todoComments (found before))
    by apply bookkeeping_lines.
  repeat split; auto.
  - rewrite E.
    destruct (processFiles_extends post after) as (_ & _ & lg & _ & _ & ->).
    apply in_or_app; left. unfold after; simpl.
    apply in_or_app; right. now left.
  - intros mid g rest content w'' -> Heg Hgg. rewrite E.
    rewrite processFiles_app, processFiles_cons.
    set (stm := processFiles getContent after mid) in *.
    destruct (processFiles_extends rest (processFile getContent stm g))
      as (i2 & t2 & lg2 & -> & -> & ->).
    destruct (processFile_success _ _ Heg Hgg) as (-> & -> & ->).
    destruct (processFiles_extends mid after) as (i1 & t1 & lg1 & Ei & Et & El).
    fold stm in Ei, Et, El. rewrite Ei, Et, El, Hi, Ht.
    exists i1, i2, t1, t2. rewrite <- !app_assoc. repeat split.
    rewrite !in_app_iff. simpl. tauto.
Qed.
End FetchFailure.

(** Of three eligible files the second cannot be fetched: the first and the
    third still give their todo entries, and the failure is logged. *)
Lemma fetch_failure_is_skipped_witness :
  let final := aggregate secondFails threeFiles tt in
  todoComments (found final)
  = [lit "- `a.js`: // TODO: tidy up"; lit "- `c.tsx`: // TODO: tidy up"]
  /\ In (LogError (lit "b.ts") (lit "Not Found")) (log final)
  /\ In (analyzingEntry (lit "c.tsx") (lit "// TODO: tidy up")) (log final).
Proof.
  pose proof (@fetch_failure_is_skipped unit secondFails (initialState tt)
                [mkFile (lit "a.js") (Some (lit "@@"))]
                (mkFile (lit "b.ts") (Some (lit "@@")))
                [mkFile (lit "c.tsx") (Some (lit "@@"))]
                (lit "Not Found") tt eq_refl eq_refl) as H.
  destruct H as (_ & _ & _ & Herr & Hrest).
  destruct (Hrest [] (mkFile (lit "c.tsx") (Some (lit "@@"))) []
                  (lit "// TODO: tidy up") tt eq_refl eq_refl eq_refl)
    as (_ & _ & _ & _ & _ & _ & Hlog).
  split; [vm_compute; reflexivity|]. split; [exact Herr|exact Hlog].
Defined.

(** ** The composed comment on concrete findings *)

(** C7.  With no issue, no todo entry and neither package file changed the
    body is the title followed by the affirmation line; it holds neither
    heading and not the lockfile warning. *)
Theorem compose_no_findings :
  compose (mkFindings [] [] false false) = title ++ noIssuesLine
  /\ emitted (mkFindings [] [] false false) = [title; noIssuesLine]
  /\ includes (compose (mkFindings [] [] false false)) noIssuesLine = true
  /\ includes (compose (mkFindings [] [] false false)) issuesHeading = false
  /\ includes (compose (mkFindings [] [] false false)) lockWarning = false
  /\ includes (compose (mkFindings [] [] false false)) todoHeading = false
  /\ includes (compose (mkFindings [] [] false false)) reminder = false.
Proof. vm_compute. repeat split. Qed.

(** ** A todo fragment over two lines *)

(** C10.  The leader [//] ends the first line and [TODO] starts the second:
    the single fragment found covers both lines, although neither line alone
    holds a match. *)
Theorem findTodos_spans_lines :
  let text := lit "x = 1; //" ++ nl ++ lit "TODO later" in
  findTodos text = [lit "//" ++ nl ++ lit "TODO later"]
  /\ In Ch.lf (lit "//" ++ nl ++ lit "TODO later")
  /\ split Ch.lf text = [lit "x = 1; //"; lit "TODO later"]
  /\ map findTodos (split Ch.lf text) = [[]; []].
Proof. vm_compute. repeat split. right; right; now left. Qed.

(** ** The lockfile warning *)

Lemma absent_by_test (c : char) (s : jsstring) :
  existsb (N.eqb c) s = false -> ~ In c s.
Proof.
  intros H Hin.
  assert (E : existsb (N.eqb c) s = true).
  { apply existsb_exists. exists c. split; [exact Hin|apply N.eqb_refl]. }
  congruence.
Qed.










(** ** Counted lines *)

Lemma Counts_filter (P : jsstring -> Prop) (f : jsstring -> bool) :
  (forall l, f l = true <-> P l) ->
  forall ls, Counts P ls (length (filter f ls)).
Proof.
  intros Hf ls. induction ls as [|l ls IH]; simpl.
  - constructor.
  - destruct (f l) eqn:E; simpl.
    + apply Counts_yes; [now apply Hf|exact IH].
    + apply Counts_no; [|exact IH]. intros HP. apply Hf in HP. congruence.
Qed.

Lemma split_nonempty (sep : char) (s : jsstring) : split sep s <> [].
Proof.
  destruct s as [|c s]; simpl; [discriminate|].
  destruct (c =? sep)%N; [discriminate|].
  destruct (split sep s); discriminate.
Qed.

Lemma join_split (sep : char) (s : jsstring) : join [sep] (split sep s) = s.
Proof.
  induction s as [|c s IH]; simpl; [reflexivity|].
  destruct (c =? sep)%N eqn:E.
  - apply N.eqb_eq in E. subst c.
    destruct (split sep s) as [|l ls] eqn:Es.
    + now destruct (split_nonempty sep s).
    + change (join [sep] ([] :: l :: ls)) with (sep :: join [sep] (l :: ls)).
      now rewrite IH.
  - destruct (split sep s) as [|l ls] eqn:Es.
    + now destruct (split_nonempty sep s).
    + rewrite <- IH. now destruct ls.
Qed.

Lemma split_pieces (sep : char) (s : jsstring) :
  Forall (fun l => ~ In sep l) (split sep s).
Proof.
  induction s as [|c s IH]; simpl.
  - constructor; auto.
  - destruct (c =? sep)%N eqn:E.
    + constructor; auto.
    + apply N.eqb_neq in E. destruct (split sep s) as [|l ls].
      * constructor; [|constructor]. simpl. intuition.
      * inversion IH; subst. constructor; [|assumption].
        simpl. intuition.
Qed.

Lemma startsWith_Prefix (s p : jsstring) :
  startsWith s p = true <-> Prefix p s.
Proof.
  revert s. induction p as [|a p IH]; intros s; simpl.
  - split; [exists s; reflexivity|reflexivity].
  - destruct s as [|b s].
    + split; [discriminate|]. intros [r E]. discriminate.
    + rewrite andb_true_iff, N.eqb_eq, IH. split.
      * intros [-> [r ->]]. now exists r.
      * intros [r E]. injection E as -> ->. split; [reflexivity|now exists r].
Qed.

Lemma strEq_eq (s t : jsstring) : strEq s t = true <-> s = t.
Proof.
  revert t. induction s as [|a s IH]; intros [|b t]; simpl;
    try (split; [discriminate|discriminate]); [tauto|].
  rewrite andb_true_iff, N.eqb_eq, IH. split.
  - now intros [-> ->].
  - intros E. injection E as -> ->. auto.
Qed.

Lemma takeWhile_dropWhile (f : char -> bool) (s : jsstring) :
  s = takeWhile f s ++ dropWhile f s
  /\ Forall (fun c => f c = true) (takeWhile f s)
  /\ (forall c, hd_error (dropWhile f s) = Some c -> f c = false).
Proof.
  induction s as [|c s (IH1 & IH2 & IH3)]; simpl.
  - repeat split; [constructor|discriminate].
  - destruct (f c) eqn:E; simpl.
    + repeat split; [now f_equal|now constructor|exact IH3].
    + repeat split; [constructor|]. intros c' H. now injection H as <-.
Qed.

Lemma dropWhile_all (f : char -> bool) (a s : jsstring) :
  Forall (fun c => f c = true) a -> dropWhile f (a ++ s) = dropWhile f s.
Proof.
  induction 1 as [|c a Hc _ IH]; simpl; [reflexivity|now rewrite Hc].
Qed.

Lemma dropWhile_stop (f : char -> bool) (s : jsstring) :
  (forall c, hd_error s = Some c -> f c = false) -> dropWhile f s = s.
Proof.
  destruct s as [|c s]; simpl; [reflexivity|].
  intros H. now rewrite (H c eq_refl).
Qed.

Lemma trim_TrimOf (line : jsstring) : TrimOf line (trim line).
Proof.
  unfold TrimOf, trim.
  destruct (takeWhile_dropWhile isSpace line) as (E1 & A1 & N1).
  destruct (takeWhile_dropWhile isSpace (rev (dropWhile isSpace line)))
    as (E2 & A2 & N2).
  set (d := dropWhile isSpace line) in *.
  set (d' := dropWhile isSpace (rev d)) in *.
  assert (Ed : d = rev d' ++ rev (takeWhile isSpace (rev d))).
  { rewrite <- rev_app_distr, <- E2. now rewrite rev_involutive. }
  exists (takeWhile isSpace line), (rev (takeWhile isSpace (rev d))).
  repeat split.
  - now rewrite <- Ed.
  - exact A1.
  - now apply Forall_rev.
  - intros c Hc. apply N1. rewrite Ed.
    destruct (rev d'); [discriminate|exact Hc].
  - rewrite rev_involutive. exact N2.
Qed.

Lemma TrimOf_trim (line t : jsstring) : TrimOf line t -> trim line = t.
Proof.
  intros (a & b & -> & Ha & Hb & Hh & Hl). unfold trim.
  rewrite (@dropWhile_all _ _ _ Ha).
  destruct t as [|c t].
  - simpl. rewrite <- (app_nil_r b) at 1. rewrite (@dropWhile_all _ _ _ Hb).
    reflexivity.
  - rewrite (dropWhile_stop isSpace ((c :: t) ++ b)) by exact Hh.
    rewrite rev_app_distr, (@dropWhile_all _ _ _ (Forall_rev Hb)).
    rewrite (dropWhile_stop isSpace (rev (c :: t))) by exact Hl.
    apply rev_involutive.
Qed.

Lemma isCodeLine_CountedLine (line : jsstring) :
  isCodeLine line = true <-> CountedLine line.
Proof.
  unfold isCodeLine, CountedLine.
  rewrite !andb_true_iff, !negb_true_iff.
  rewrite <- !not_true_iff_false, !startsWith_Prefix, strEq_eq. split.
  - intros H. exists (trim line). split; [apply trim_TrimOf|tauto].
  - intros (t & Ht & H). apply TrimOf_trim in Ht. subst t. tauto.
Qed.

(** C4.  The text is cut at every line feed, and the count is the number of
    those lines whose trimmed form is not empty and starts with none of
    [//], [/*], [*], [import ] and [export ]; a line whose trimmed form is
    empty or starts with one of them is not counted. *)
Theorem countLines_counts (T : jsstring) :
  join nl (split Ch.lf T) = T
  /\ Forall (fun l => ~ In Ch.lf l) (split Ch.lf T)
  /\ Counts CountedLine (split Ch.lf T) (countLines T)
  /\ forall line t,
      TrimOf line t ->
      t = [] \/ Prefix (lit "//") t \/ Prefix (lit "/*") t \/ Prefix (lit "*") t
      \/ Prefix (lit "import ") t \/ Prefix (lit "export ") t ->
      isCodeLine line = false /\ ~ CountedLine line.
Proof.
  split; [apply join_split|]. split; [apply split_pieces|]. split.
  - apply Counts_filter, isCodeLine_CountedLine.
  - intros line t Ht Hp.
    assert (Hn : ~ CountedLine line).
    { intros (t' & Ht' & H). apply TrimOf_trim in Ht, Ht'. subst t t'. tauto. }
    split; [|exact Hn].
    destruct (isCodeLine line) eqn:E; [|reflexivity].
    now apply isCodeLine_CountedLine in E.
Qed.

(** ** What the matcher computes *)

Section MatcherFacts.
Variables (icase mline : bool).

Lemma oneOf_sound (f : char -> bool) p s k e :
  oneOf f p s k = Some e ->
  exists c s', s = c :: s' /\ f c = true /\ k (Some c) s' = Some e.
Proof.
  unfold oneOf. destruct s as [|c s']; [discriminate|].
  destruct (f c) eqn:E; [|discriminate]. intros H. now exists c, s'.
Qed.

Lemma repeatMatcher_sound (r : regex) (body : matcher) :
  (forall p s k e, body p s k = Some e ->
      exists p' s', Matches icase mline r p s p' s' /\ k p' s' = Some e) ->
  forall n p s k e,
    repeatMatcher body k n p s = Some e ->
    exists p' s', Matches icase mline (Star r) p s p' s' /\ k p' s' = Some e.
Proof.
  intros Hbody n. induction n as [|n IH]; intros p s k e H; simpl in H.
  - exists p, s. split; [constructor|exact H].
  - destruct (body p s _) as [e0|] eqn:E.
    + injection H as ->. apply Hbody in E. destruct E as (p1 & s1 & M1 & E1).
      destruct (length s1 <? length s) eqn:L; [|discriminate].
      apply Nat.ltb_lt in L. apply IH in E1. destruct E1 as (p2 & s2 & M2 & E2).
      exists p2, s2. split; [|exact E2]. eapply M_StarS; eauto.
    + exists p, s. split; [constructor|exact H].
Qed.

(** Whatever the matcher returns comes from its continuation, called at a
    position the pattern can end at. *)
Lemma compile_sound (r : regex) : forall p s k e,
  compile icase mline r p s k = Some e ->
  exists p' s', Matches icase mline r p s p' s' /\ k p' s' = Some e.
Proof.
  induction r as [|c| | | | |r1 IH1 r2 IH2|r1 IH1 r2 IH2|r IH];
    intros p s k e H; simpl in H.
  - exists p, s. split; [constructor|exact H].
  - apply oneOf_sound in H. destruct H as (c' & s' & -> & Hc & H).
    exists (Some c'), s'. split; [now constructor|exact H].
  - apply oneOf_sound in H. destruct H as (c' & s' & -> & Hc & H).
    exists (Some c'), s'. split; [now constructor|exact H].
  - apply oneOf_sound in H. destruct H as (c' & s' & -> & Hc & H).
    exists (Some c'), s'. split; [now constructor|exact H].
  - apply oneOf_sound in H. destruct H as (c' & s' & -> & Hc & H).
    exists (Some c'), s'. split; [now constructor|exact H].
  - destruct (atLineStart mline p) eqn:E; [|discriminate].
    exists p, s. split; [now constructor|exact H].
  - apply IH1 in H. destruct H as (p1 & s1 & M1 & H).
    apply IH2 in H. destruct H as (p2 & s2 & M2 & H).
    exists p2, s2. split; [econstructor; eauto|exact H].
  - destruct (compile icase mline r1 p s k) as [e0|] eqn:E.
    + injection H as ->. apply IH1 in E. destruct E as (p' & s' & M & E1).
      exists p', s'. split; [now apply M_AltL|exact E1].
    + apply IH2 in H. destruct H as (p' & s' & M & E1).
      exists p', s'. split; [now apply M_AltR|exact E1].
  - eapply repeatMatcher_sound; eauto.
Qed.

Lemma compile_complete_aux r p s p' s' :
  Matches icase mline r p s p' s' ->
  (forall k, (exists e, k p' s' = Some e) ->
             exists e, compile icase mline r p s k = Some e)
  /\ (forall r0, r = Star r0 ->
      forall k n, length s <= n -> (exists e, k p' s' = Some e) ->
                  exists e, repeatMatcher (compile icase mline r0) k n p s
                            = Some e).
Proof.
  induction 1 as [p s|c c' p s Hc|c p s Hc|c p s Hc|c p s Hc|p s Hb
                  |r1 r2 p s p1 s1 p2 s2 _ [IH1 _] _ [IH2 _]
                  |r1 r2 p s p' s' _ [IH _]|r1 r2 p s p' s' _ [IH _]
                  |r p s|r p s p1 s1 p2 s2 _ [IH1 _] L _ [_ IH2]];
    (split; [|try discriminate]).
  - intros k Hk. exact Hk.
  - intros k Hk. simpl. now rewrite Hc.
  - intros k Hk. simpl. now rewrite Hc.
  - intros k Hk. simpl. now rewrite Hc.
  - intros k Hk. simpl. now rewrite Hc.
  - intros k Hk. simpl. now rewrite Hb.
  - intros k Hk. simpl. apply IH1, IH2, Hk.
  - intros k Hk. simpl. destruct (IH k Hk) as [e ->]. now exists e.
  - intros k Hk. simpl.
    destruct (compile icase mline r1 p s k) as [e|]; [now exists e|].
    apply IH, Hk.
  - intros k [e Hk]. simpl.
    destruct (length s) as [|n]; simpl; [now exists e|].
    destruct (compile icase mline r p s _) as [e0|];
      [now exists e0|now exists e].
  - intros r0 E k n _ [e Hk]. injection E as <-.
    destruct n as [|n]; simpl; [now exists e|].
    destruct (compile icase mline r p s _) as [e0|];
      [now exists e0|now exists e].
  - assert (G : forall k n, length s <= n -> (exists e, k p2 s2 = Some e) ->
                exists e, repeatMatcher (compile icase mline r) k n p s
                          = Some e).
    { intros k n Hn Hk. destruct n as [|n]; [lia|]. simpl.
      set (k' := fun (p'0 : option char) (s'0 : jsstring) =>
                   if length s'0 <? length s
                   then repeatMatcher (compile icase mline r) k n p'0 s'0
                   else None).
      destruct (IH1 k') as [e0 E].
      - unfold k'. rewrite (proj2 (Nat.ltb_lt _ _) L).
        apply (IH2 r eq_refl); [lia|exact Hk].
      - rewrite E. now exists e0. }
    intros k Hk. simpl. now apply G.
  - intros r0 E. injection E as <-. intros k n Hn Hk.
    destruct n as [|n]; [lia|]. simpl.
    set (k' := fun (p'0 : option char) (s'0 : jsstring) =>
                 if length s'0 <? length s
                 then repeatMatcher (compile icase mline r) k n p'0 s'0
                 else None).
    destruct (IH1 k') as [e0 E].
    + unfold k'. rewrite (proj2 (Nat.ltb_lt _ _) L).
      apply (IH2 r eq_refl); [lia|exact Hk].
    + rewrite E. now exists e0.
Qed.

(** When the pattern can end at a position at which the continuation
    succeeds, the matcher succeeds. *)
Lemma compile_complete r p s p' s' k :
  Matches icase mline r p s p' s' -> (exists e, k p' s' = Some e) ->
  exists e, compile icase mline r p s k = Some e.
Proof. intros M. now apply (compile_complete_aux M). Qed.

Lemma Matches_position r p s p' s' :
  Matches icase mline r p s p' s' -> exists m, s = m ++ s' /\ p' = lastOf p m.
Proof.
  induction 1 as [p s|c c' p s Hc|c p s Hc|c p s Hc|c p s Hc|p s Hb
                  |r1 r2 p s p1 s1 p2 s2 _ IH1 _ IH2
                  |r1 r2 p s p' s' _ IH|r1 r2 p s p' s' _ IH
                  |r p s|r p s p1 s1 p2 s2 _ IH1 L _ IH2];
    try (now exists []); try (now exists [c]); try exact IH.
  - now exists [c'].
  - destruct IH1 as (m1 & E1 & F1), IH2 as (m2 & E2 & F2). subst.
    exists (m1 ++ m2). unfold lastOf. now rewrite fold_left_app, app_assoc.
  - destruct IH1 as (m1 & E1 & F1), IH2 as (m2 & E2 & F2). subst.
    exists (m1 ++ m2). unfold lastOf. now rewrite fold_left_app, app_assoc.
Qed.

(** None of the patterns looks ahead: a match stays one when more input
    follows. *)
Lemma Matches_frame r p s p' s' (S : jsstring) :
  Matches icase mline r p s p' s' ->
  Matches icase mline r p (s ++ S) p' (s' ++ S).
Proof.
  induction 1; simpl;
    try (now constructor); try (now apply M_AltL); try (now apply M_AltR).
  - econstructor; eauto.
  - eapply M_StarS; eauto. rewrite !length_app. lia.
Qed.

Lemma matchAt_sound r p s e :
  matchAt icase mline r p s = Some e ->
  exists p', Matches icase mline r p s p' e.
Proof.
  unfold matchAt. intros H. apply compile_sound in H.
  destruct H as (p' & s' & M & E). injection E as ->. now exists p'.
Qed.

Lemma matchAt_complete r p s p' s' :
  Matches icase mline r p s p' s' ->
  exists e, matchAt icase mline r p s = Some e.
Proof.
  intros M. unfold matchAt. eapply compile_complete; eauto.
Qed.
End MatcherFacts.

(** ** The bound on the iterations of a star *)

Section Fuel.
Variables (icase mline : bool).

Lemma repeatMatcher_ext (body : matcher) :
  (forall p s k1 k2,
      (forall p' s', length s' <= length s -> k1 p' s' = k2 p' s') ->
      body p s k1 = body p s k2) ->
  forall n p s k1 k2,
    (forall p' s', length s' <= length s -> k1 p' s' = k2 p' s') ->
    repeatMatcher body k1 n p s = repeatMatcher body k2 n p s.
Proof.
  intros Hbody n. induction n as [|n IH]; intros p s k1 k2 Hk; simpl.
  - now apply Hk.
  - rewrite (Hk p s (Nat.le_refl _)).
    erewrite Hbody; [reflexivity|].
    intros p' s' Hs'. simpl.
    destruct (length s' <? length s) eqn:L; [|reflexivity].
    apply IH. intros p'' s'' Hs''. apply Hk. lia.
Qed.

(** The matcher calls its continuation at positions of the input only. *)
Lemma compile_ext (r : regex) : forall p s k1 k2,
  (forall p' s', length s' <= length s -> k1 p' s' = k2 p' s') ->
  compile icase mline r p s k1 = compile icase mline r p s k2.
Proof.
  induction r as [|c| | | | |r1 IH1 r2 IH2|r1 IH1 r2 IH2|r IH];
    intros p s k1 k2 Hk; simpl;
    try (unfold oneOf; destruct s as [|c' s]; [reflexivity|];
         match goal with |- context [if ?b then _ else _] => destruct b end;
         [apply Hk; simpl; lia|reflexivity]).
  - now apply Hk.
  - destruct (atLineStart mline p); [now apply Hk|reflexivity].
  - apply IH1. intros p' s' Hs'. apply IH2.
    intros p'' s'' Hs''. apply Hk. lia.
  - rewrite (IH1 p s k1 k2 Hk), (IH2 p s k1 k2 Hk). reflexivity.
  - now apply repeatMatcher_ext.
Qed.

Lemma compile_stuck (r : regex) p s (k : cont) :
  (forall p' s', k p' s' = None) -> compile icase mline r p s k = None.
Proof.
  intros Hk. destruct (compile icase mline r p s k) as [e|] eqn:E;
    [|reflexivity].
  apply compile_sound in E. destruct E as (p' & s' & _ & E).
  now rewrite Hk in E.
Qed.

(** A larger bound changes nothing: the bound never stops a star. *)
Lemma repeatMatcher_bound (r : regex) (k : cont) : forall n p s,
  length s <= n ->
  repeatMatcher (compile icase mline r) k (S n) p s
  = repeatMatcher (compile icase mline r) k n p s.
Proof.
  induction n as [|n IH]; intros p s Hn.
  - destruct s; [|simpl in Hn; lia]. simpl.
    rewrite compile_stuck; [reflexivity|]. intros p' s'. reflexivity.
  - change (match compile icase mline r p s
                    (fun p' s' => if length s' <? length s
                                  then repeatMatcher (compile icase mline r) k
                                         (S n) p' s'
                                  else None) with
            | Some e => Some e
            | None => k p s
            end
            = match compile icase mline r p s
                      (fun p' s' => if length s' <? length s
                                    then repeatMatcher (compile icase mline r)
                                           k n p' s'
                                    else None) with
              | Some e => Some e
              | None => k p s
              end).
    erewrite compile_ext; [reflexivity|].
    intros p' s' Hs'. simpl.
    destruct (length s' <? length s) eqn:L; [|reflexivity].
    apply Nat.ltb_lt in L. apply IH. lia.
Qed.

Lemma repeatMatcher_any_bound (r : regex) (k : cont) p s : forall d,
  repeatMatcher (compile icase mline r) k (length s + d) p s
  = compile icase mline (Star r) p s k.
Proof.
  induction d as [|d IH]; simpl.
  - now rewrite Nat.add_0_r.
  - rewrite Nat.add_succ_r, repeatMatcher_bound by lia. exact IH.
Qed.
End Fuel.

(** ** The loop of a global expression *)

Section Scan.
Variable f : option char -> jsstring -> option jsstring.

Lemma scan_attempt i p s :
  scan f i 0 p s
  = match f p s with
    | Some e =>
        (i, firstn (length s - length e) s)
        :: match s with
           | [] => []
           | c :: s' => scan f (S i) (pred (length s - length e)) (Some c) s'
           end
    | None =>
        match s with
        | [] => []
        | c :: s' => scan f (S i) 0 (Some c) s'
        end
    end.
Proof. destruct s; reflexivity. Qed.

(** A position at which the expression matches gives at least one match. *)
Lemma scan_hit pre : forall i p suf,
  (exists e, f (lastOf p pre) suf = Some e) -> scan f i 0 p (pre ++ suf) <> [].
Proof.
  induction pre as [|c pre IH]; intros i p suf [e He]; rewrite scan_attempt.
  - simpl in *. rewrite He. discriminate.
  - destruct (f p ((c :: pre) ++ suf)); [discriminate|].
    simpl. apply IH. now exists e.
Qed.

(** A match was found at some position. *)
Lemma scan_found s : forall i p,
  scan f i 0 p s <> [] ->
  exists pre suf e, s = pre ++ suf /\ f (lastOf p pre) suf = Some e.
Proof.
  induction s as [|c s IH]; intros i p H; rewrite scan_attempt in H.
  - destruct (f p []) as [e|] eqn:E; [|now destruct H].
    now exists [], [], e.
  - destruct (f p (c :: s)) as [e|] eqn:E.
    + now exists [], (c :: s), e.
    + apply IH in H. destruct H as (pre & suf & e & -> & He).
      now exists (c :: pre), suf, e.
Qed.
End Scan.

Lemma length_String_match (re : RegExp) (T : jsstring) :
  length (orEmpty (String_match re T)) = length (matchAll re T).
Proof.
  unfold String_match. destruct (matchAll re T); simpl;
    now rewrite ?length_map.
Qed.

Lemma NoMatch_matchAll (re : RegExp) (T : jsstring) :
  NoMatch re T -> matchAll re T = [].
Proof.
  intros H. destruct (matchAll re T) as [|m ms] eqn:E; [reflexivity|].
  exfalso. unfold matchAll in E.
  destruct (@scan_found (matchHere re) T 0 None) as (pre & suf & e & -> & He).
  { rewrite E. discriminate. }
  apply matchAt_sound in He. destruct He as [p' M]. exact (H _ _ _ _ eq_refl M).
Qed.

Lemma matchAll_hit (re : RegExp) (pre suf : jsstring) p' s' :
  Matches (ignoreCase re) (multiline re) (pattern re) (lastOf None pre) suf p' s'
  -> 1 <= length (matchAll re (pre ++ suf)).
Proof.
  intros M. apply matchAt_complete in M.
  assert (H := @scan_hit (matchHere re) pre 0 None suf M).
  unfold matchAll. destruct (scan _ _ _ _ _); [now destruct H|simpl; lia].
Qed.

Lemma matchAll_found (re : RegExp) (T : jsstring) :
  1 <= length (matchAll re T) ->
  exists pre suf p' s',
    T = pre ++ suf
    /\ Matches (ignoreCase re) (multiline re) (pattern re)
               (lastOf None pre) suf p' s'.
Proof.
  intros H. unfold matchAll in H.
  destruct (@scan_found (matchHere re) T 0 None) as (pre & suf & e & -> & He).
  { intros E. rewrite E in H. simpl in H. lia. }
  apply matchAt_sound in He. destruct He as [p' M]. now exists pre, suf, p', e.
Qed.

(** ** Methods counted twice *)

Lemma arrow_in_function (T : jsstring) :
  1 <= length (matchAll arrowFunctionRegex T) ->
  1 <= length (matchAll functionRegex T).
Proof.
  intros H. apply matchAll_found in H.
  destruct H as (pre & suf & p' & s' & -> & M).
  change (pattern arrowFunctionRegex)
    with (Seq (alts (Lit "const") [Lit "let"; Lit "var"])
              (Seq (Plus Space) arrowTail)) in M.
  inversion M as [| | | | | |r1 r2 p0 s0 p1 s1 p2 s2 M1 M2| | | |]; subst.
  inversion M2 as [| | | | | |r1 r2 p0 s0 p3 s3 p4 s4 M3 M4| | | |]; subst.
  destruct (Matches_position M1) as (m1 & -> & ->).
  destruct (Matches_position M3) as (m3 & -> & ->).
  rewrite !app_assoc.
  apply (@matchAll_hit functionRegex ((pre ++ m1) ++ m3) s3 p' s').
  unfold lastOf. rewrite !fold_left_app.
  change (pattern functionRegex)
    with (Alt (functionHead Eps) (Alt arrowTail
           (Alt (seqs [Plus Word; Star Space; Chr Ch.colon; Star Space;
                       Lit "function"])
                (seqs [Bol; Star Space; Plus Word; Chr Ch.lparen; Star Dot;
                       Chr Ch.rparen; Star Space; Chr Ch.lbrace])))).
  apply M_AltR, M_AltL. exact M4.
Qed.

Lemma regular_in_function (T : jsstring) :
  1 <= length (matchAll regularFunctionRegex T) ->
  1 <= length (matchAll functionRegex T).
Proof.
  intros H. apply matchAll_found in H.
  destruct H as (pre & suf & p' & s' & -> & M).
  change (pattern regularFunctionRegex)
    with (functionHead (seqs [Star Space; Chr Ch.lparen; Star Dot;
                              Chr Ch.rparen; Star Space; Chr Ch.lbrace])) in M.
  unfold functionHead in M.
  inversion M as [| | | | | |r1 r2 p0 s0 p1 s1 p2 s2 M1 M2| | | |]; subst.
  inversion M2 as [| | | | | |r1 r2 p0 s0 p3 s3 p4 s4 M3 M4| | | |]; subst.
  inversion M4 as [| | | | | |r1 r2 p0 s0 p5 s5 p6 s6 M5 M6| | | |]; subst.
  apply (@matchAll_hit functionRegex pre suf p5 s5).
  change (pattern functionRegex)
    with (Alt (functionHead Eps) (Alt arrowTail
           (Alt (seqs [Plus Word; Star Space; Chr Ch.colon; Star Space;
                       Lit "function"])
                (seqs [Bol; Star Space; Plus Word; Chr Ch.lparen; Star Dot;
                       Chr Ch.rparen; Star Space; Chr Ch.lbrace])))).
  apply M_AltL. unfold functionHead.
  eapply M_Seq; [exact M1|]. eapply M_Seq; [exact M3|].
  eapply M_Seq; [exact M5|]. constructor.
Qed.

Lemma arrowLine_in_context (P S : jsstring) :
  1 <= length (matchAll arrowFunctionRegex (P ++ arrowLine ++ S))
  /\ 1 <= length (matchAll functionRegex (P ++ arrowLine ++ S)).
Proof.
  split.
  - assert (E : matchHere arrowFunctionRegex (lastOf None P) arrowLine
                = Some (lit " {}")) by reflexivity.
    apply matchAt_sound in E. destruct E as [p' M].
    apply (Matches_frame S) in M.
    exact (@matchAll_hit arrowFunctionRegex P (arrowLine ++ S) _ _ M).
  - assert (E : matchHere functionRegex (Some Ch.space) (lit "f = () => {}")
                = Some (lit " {}")) by reflexivity.
    apply matchAt_sound in E. destruct E as [p' M].
    apply (Matches_frame S) in M.
    change (P ++ arrowLine ++ S)
      with (P ++ lit "const " ++ lit "f = () => {}" ++ S).
    rewrite app_assoc.
    apply (@matchAll_hit functionRegex (P ++ lit "const ")
             (lit "f = () => {}" ++ S) p' (lit " {}" ++ S)).
    unfold lastOf. rewrite fold_left_app. exact M.
Qed.

Lemma functionLine_in_context (P S : jsstring) :
  1 <= length (matchAll regularFunctionRegex (P ++ functionLine ++ S))
  /\ 1 <= length (matchAll functionRegex (P ++ functionLine ++ S)).
Proof.
  split.
  - assert (E : matchHere regularFunctionRegex (lastOf None P) functionLine
                = Some (lit "}")) by reflexivity.
    apply matchAt_sound in E. destruct E as [p' M].
    apply (Matches_frame S) in M.
    exact (@matchAll_hit regularFunctionRegex P (functionLine ++ S) _ _ M).
  - assert (E : matchHere functionRegex (lastOf None P) functionLine
                = Some (lit "() {}")) by reflexivity.
    apply matchAt_sound in E. destruct E as [p' M].
    apply (Matches_frame S) in M.
    exact (@matchAll_hit functionRegex P (functionLine ++ S) _ _ M).
Qed.

(** C3.  The count is the sum of the numbers of matches of the three
    expressions, nothing being removed: a text in which the arrow expression
    or the named-function expression matches is counted by the broad
    expression as well, hence at least twice, and the line
    [const f = () => {}] adds at least 2 wherever it stands (exactly 2 on its
    own).  Each of the three expressions does count: the declaration
    [function foo() {}] is matched by the broad and by the named-function
    expression and adds at least 2 wherever it stands, a method of an object
    literal is matched by the broad expression alone and counts once, and a
    text with a declaration and an arrow function counts 4. *)
Theorem countMethods_double_counts (T : jsstring) :
  countMethods T
  = length (matchAll functionRegex T)
    + length (matchAll arrowFunctionRegex T)
    + length (matchAll regularFunctionRegex T)
  /\ (1 <= length (matchAll arrowFunctionRegex T) -> 2 <= countMethods T)
  /\ (1 <= length (matchAll regularFunctionRegex T) -> 2 <= countMethods T)
  /\ (forall P S, 2 <= countMethods (P ++ arrowLine ++ S))
  /\ matchAll functionRegex arrowLine = [(6, lit "f = () =>")]
  /\ matchAll arrowFunctionRegex arrowLine = [(0, lit "const f = () =>")]
  /\ matchAll regularFunctionRegex arrowLine = []
  /\ countMethods arrowLine = 2
  /\ (forall P S, 2 <= countMethods (P ++ functionLine ++ S))
  /\ matchAll functionRegex functionLine = [(0, lit "function foo")]
  /\ matchAll arrowFunctionRegex functionLine = []
  /\ matchAll regularFunctionRegex functionLine = [(0, lit "function foo() {")]
  /\ countMethods functionLine = 2
  /\ matchAll functionRegex (lit "run: function") = [(0, lit "run: function")]
  /\ countMethods (lit "run: function") = 1
  /\ matchAll functionRegex (functionLine ++ nl ++ arrowLine)
     = [(0, lit "function foo"); (24, lit "f = () =>")]
  /\ matchAll arrowFunctionRegex (functionLine ++ nl ++ arrowLine)
     = [(18, lit "const f = () =>")]
  /\ matchAll regularFunctionRegex (functionLine ++ nl ++ arrowLine)
     = [(0, lit "function foo() {")]
  /\ countMethods (functionLine ++ nl ++ arrowLine) = 4.
Proof.
  assert (E : forall T', countMethods T'
              = length (matchAll functionRegex T')
                + length (matchAll arrowFunctionRegex T')
                + length (matchAll regularFunctionRegex T')).
  { intros T'. unfold countMethods. now rewrite !length_String_match. }
  split; [apply E|]. split; [|split; [|split]].
  - intros H. pose proof (arrow_in_function T H). rewrite E. lia.
  - intros H. pose proof (regular_in_function T H). rewrite E. lia.
  - intros P S. destruct (arrowLine_in_context P S). rewrite E. lia.
  - do 4 (split; [vm_compute; reflexivity|]).
    split; [|vm_compute; repeat split].
    intros P S. destruct (functionLine_in_context P S). rewrite E. lia.
Qed.

(** On [function foo() {}] the named-function expression matches, so the
    declaration is counted twice. *)
Lemma countMethods_double_counts_witness :
  1 <= length (matchAll regularFunctionRegex functionLine)
  /\ 2 <= countMethods functionLine.
Proof.
  assert (H : 1 <= length (matchAll regularFunctionRegex functionLine))
    by (vm_compute; lia).
  split; [exact H|].
  destruct (countMethods_double_counts functionLine) as (_ & _ & Hr & _).
  exact (Hr H).
Defined.

(** ** Texts without a match *)

Lemma NoMatch_iff (re : RegExp) (T : jsstring) :
  NoMatch re T <-> String_match re T = None.
Proof.
  split.
  - intros H. unfold String_match. now rewrite (NoMatch_matchAll H).
  - intros H pre suf p' s' -> M. apply matchAll_hit in M.
    unfold String_match in H.
    destruct (matchAll re (pre ++ suf)); [simpl in M; lia|discriminate].
Qed.

Lemma filter_none (A : Type) (f : A -> bool) (l : list A) :
  Forall (fun x => f x = false) l -> filter f l = [].
Proof.
  induction 1 as [|x l Hx _ IH]; simpl; [reflexivity|now rewrite Hx].
Qed.

(** C9.  The extractors are functions of the text with no failing case.  An
    expression that matches nowhere makes [match] answer [null], which the
    count reads as the empty array: with no match of the three expressions
    the method count is 0, with no match of the todo expression the list of
    todos is empty, and with no countable line the line count is 0.  The
    bound on the iterations of a star is never what ends a match. *)
Theorem extractors_total (T : jsstring) :
  (forall re, NoMatch re T <-> String_match re T = None)
  /\ (forall re, String_match re T = None ->
                 length (orEmpty (String_match re T)) = 0)
  /\ (forall icase mline r k p d,
         repeatMatcher (compile icase mline r) k (length T + d) p T
         = compile icase mline (Star r) p T k)
  /\ (NoMatch functionRegex T -> NoMatch arrowFunctionRegex T ->
      NoMatch regularFunctionRegex T -> countMethods T = 0)
  /\ (NoMatch todoRegex T -> findTodos T = [])
  /\ (Forall (fun line => ~ CountedLine line) (split Ch.lf T) ->
      countLines T = 0)
  /\ countLines [] = 0 /\ countMethods [] = 0 /\ findTodos [] = []
  /\ countLines (lit "// note") = 0
  /\ countMethods (lit "let x = 1;") = 0
  /\ findTodos (lit "let x = 1;") = [].
Proof.
  split; [intros re; apply NoMatch_iff|].
  split; [now intros re ->|].
  split; [intros; apply repeatMatcher_any_bound|].
  split; [|split; [|split]].
  - intros Hf Ha Hr. unfold countMethods.
    apply NoMatch_iff in Hf, Ha, Hr. now rewrite Hf, Ha, Hr.
  - intros H. unfold findTodos. now rewrite (NoMatch_matchAll H).
  - intros H. unfold countLines. rewrite filter_none; [reflexivity|].
    eapply Forall_impl; [|exact H]. intros line Hl. simpl in Hl.
    destruct (isCodeLine line) eqn:E; [|reflexivity].
    now apply isCodeLine_CountedLine in E.
  - vm_compute. repeat split.
Qed.

(** ** The todo expression read greedily *)

Section Greedy.
Variables (icase mline : bool).

Lemma compile_Lit (l : jsstring) (g : jsstring -> option jsstring) (k : cont) :
  (forall p s, k p s = g s) ->
  forall p s,
    compile icase mline (seqs (map Chr l)) p s k
    = match litAt icase l s with
      | Some s' => g s'
      | None => None
      end.
Proof.
  intros Hk. induction l as [|a l IH]; intros p s; simpl.
  - apply Hk.
  - unfold oneOf. destruct s as [|c s]; [reflexivity|].
    destruct (sameChar icase a c); [apply IH|reflexivity].
Qed.

Lemma compile_Chr (a : char) (g : jsstring -> option jsstring) (k : cont) :
  (forall p s, k p s = g s) ->
  forall p s,
    compile icase mline (Chr a) p s k
    = match litAt icase [a] s with
      | Some s' => g s'
      | None => None
      end.
Proof.
  intros Hk p s. simpl. unfold oneOf. destruct s as [|c s]; [reflexivity|].
  destruct (sameChar icase a c); [apply Hk|reflexivity].
Qed.

(** A star over a class whose continuation never fails takes the whole run. *)
Lemma repeat_class_total (f : char -> bool) (g : jsstring -> option jsstring)
      (k : cont) :
  (forall p s, k p s = g s) ->
  (forall s, g s <> None) ->
  forall n p s, length s <= n ->
    repeatMatcher (oneOf f) k n p s = g (dropWhile f s).
Proof.
  intros Hk Hg n. induction n as [|n IH]; intros p s Hn.
  - destruct s; [|simpl in Hn; lia]. simpl. apply Hk.
  - simpl. unfold oneOf. destruct s as [|c s]; [apply Hk|].
    cbn [dropWhile]. destruct (f c); [|apply Hk].
    replace (length s <? length (c :: s)) with true
      by (symmetry; apply Nat.ltb_lt; simpl; lia).
    rewrite IH by (simpl in Hn; lia).
    destruct (g (dropWhile f s)) eqn:E; [reflexivity|].
    now destruct (Hg (dropWhile f s)).
Qed.

(** A star over a class whose continuation fails on every unit of the class
    has to take the whole run. *)
Lemma repeat_class_blocked (f : char -> bool) (g : jsstring -> option jsstring)
      (k : cont) :
  (forall p s, k p s = g s) ->
  (forall c s, f c = true -> g (c :: s) = None) ->
  forall n p s, length s <= n ->
    repeatMatcher (oneOf f) k n p s = g (dropWhile f s).
Proof.
  intros Hk Hg n. induction n as [|n IH]; intros p s Hn.
  - destruct s; [|simpl in Hn; lia]. simpl. apply Hk.
  - simpl. unfold oneOf. destruct s as [|c s]; [apply Hk|].
    cbn [dropWhile]. destruct (f c) eqn:Ef; [|apply Hk].
    replace (length s <? length (c :: s)) with true
      by (symmetry; apply Nat.ltb_lt; simpl; lia).
    rewrite IH by (simpl in Hn; lia).
    destruct (g (dropWhile f s)) eqn:E; [reflexivity|].
    rewrite Hk. now apply Hg.
Qed.
End Greedy.

Lemma litAt_space_blocked (a : char) (l s : jsstring) (c : char) :
  isSpace a = false -> canonicalize a = a -> isSpace c = true ->
  litAt true (a :: l) (c :: s) = None.
Proof.
  intros Ha Hca Hc. simpl. unfold sameChar. rewrite Hca.
  destruct (a =? canonicalize c)%N eqn:E; [|reflexivity].
  apply N.eqb_eq in E. exfalso.
  unfold canonicalize in E.
  destruct ((97 <=? c) && (c <=? 122))%N eqn:R.
  - apply andb_true_iff in R. destruct R as [R1 R2].
    apply N.leb_le in R1, R2. unfold isSpace in Hc.
    repeat rewrite orb_true_iff in Hc. repeat rewrite andb_true_iff in Hc.
    repeat rewrite N.eqb_eq in Hc. repeat rewrite N.leb_le in Hc. lia.
  - subst a. congruence.
Qed.

(** The matcher of the todo expression is the greedy reading. *)
Lemma matchHere_todoAt (p : option char) (s : jsstring) :
  matchHere todoRegex p s = todoAt s.
Proof.
  unfold matchHere, matchAt. simpl ignoreCase. simpl multiline.
  change (pattern todoRegex)
    with (Seq (Alt (Lit "//") (Alt (Chr Ch.hash) (Chr Ch.star)))
              (Seq (Star Space)
                   (Seq (Alt (Lit "TODO") (Lit "FIXME"))
                        (Seq (Opt (Chr Ch.colon))
                             (Seq (Star Space) (Seq (Star Dot) Eps)))))).
  set (final := fun (_ : option char) (s' : jsstring) => Some s').
  assert (K5 : forall p s,
             compile true false (Seq (Star Dot) Eps) p s final
             = Some (dropWhile isDot s)).
  { intros p0 s0. simpl.
    apply (@repeat_class_total isDot (fun s => Some s));
      [reflexivity|discriminate|lia]. }
  assert (K4 : forall p s,
             compile true false (Seq (Star Space) (Seq (Star Dot) Eps)) p s final
             = todoTail s).
  { intros p0 s0.
    change (repeatMatcher (oneOf isSpace)
              (fun p' s' => compile true false (Seq (Star Dot) Eps) p' s' final)
              (length s0) p0 s0 = todoTail s0).
    apply (@repeat_class_total isSpace (fun s => Some (dropWhile isDot s)));
      [exact K5|discriminate|lia]. }
  assert (K3 : forall p s,
             compile true false
               (Seq (Opt (Chr Ch.colon))
                    (Seq (Star Space) (Seq (Star Dot) Eps))) p s final
             = todoColon s).
  { intros p0 s0.
    change (match compile true false (Chr Ch.colon) p0 s0
                    (fun p' s' => compile true false
                       (Seq (Star Space) (Seq (Star Dot) Eps)) p' s' final) with
            | Some e => Some e
            | None => compile true false
                        (Seq (Star Space) (Seq (Star Dot) Eps)) p0 s0 final
            end = todoColon s0).
    rewrite (compile_Chr true false Ch.colon todoTail _ K4), K4. reflexivity. }
  assert (K2 : forall p s,
             compile true false
               (Seq (Alt (Lit "TODO") (Lit "FIXME"))
                    (Seq (Opt (Chr Ch.colon))
                         (Seq (Star Space) (Seq (Star Dot) Eps)))) p s final
             = todoKeyword s).
  { intros p0 s0.
    change (match compile true false (Lit "TODO") p0 s0
                    (fun p' s' => compile true false
                       (Seq (Opt (Chr Ch.colon))
                          (Seq (Star Space) (Seq (Star Dot) Eps))) p' s' final)
            with
            | Some e => Some e
            | None => compile true false (Lit "FIXME") p0 s0
                        (fun p' s' => compile true false
                           (Seq (Opt (Chr Ch.colon))
                              (Seq (Star Space) (Seq (Star Dot) Eps)))
                           p' s' final)
            end = todoKeyword s0).
    unfold Lit.
    rewrite !(compile_Lit true false _ todoColon _ K3). reflexivity. }
  assert (K1 : forall p s,
             compile true false
               (Seq (Star Space)
                    (Seq (Alt (Lit "TODO") (Lit "FIXME"))
                         (Seq (Opt (Chr Ch.colon))
                              (Seq (Star Space) (Seq (Star Dot) Eps)))))
               p s final
             = todoLeader s).
  { intros p0 s0.
    change (repeatMatcher (oneOf isSpace)
              (fun p' s' => compile true false
                 (Seq (Alt (Lit "TODO") (Lit "FIXME"))
                    (Seq (Opt (Chr Ch.colon))
                       (Seq (Star Space) (Seq (Star Dot) Eps)))) p' s' final)
              (length s0) p0 s0 = todoLeader s0).
    apply (@repeat_class_blocked isSpace todoKeyword); [exact K2| |lia].
    intros c s1 Hc. unfold todoKeyword, afterLit.
    change (lit "TODO") with (84 :: lit "ODO")%N.
    change (lit "FIXME") with (70 :: lit "IXME")%N.
    rewrite !litAt_space_blocked; auto. }
  change (match compile true false (Lit "//") p s
                  (fun p' s' => compile true false
                     (Seq (Star Space)
                        (Seq (Alt (Lit "TODO") (Lit "FIXME"))
                           (Seq (Opt (Chr Ch.colon))
                              (Seq (Star Space) (Seq (Star Dot) Eps)))))
                     p' s' final) with
          | Some e => Some e
          | None =>
              match compile true false (Chr Ch.hash) p s
                      (fun p' s' => compile true false
                         (Seq (Star Space)
                            (Seq (Alt (Lit "TODO") (Lit "FIXME"))
                               (Seq (Opt (Chr Ch.colon))
                                  (Seq (Star Space) (Seq (Star Dot) Eps)))))
                         p' s' final) with
              | Some e => Some e
              | None => compile true false (Chr Ch.star) p s
                          (fun p' s' => compile true false
                             (Seq (Star Space)
                                (Seq (Alt (Lit "TODO") (Lit "FIXME"))
                                   (Seq (Opt (Chr Ch.colon))
                                      (Seq (Star Space) (Seq (Star Dot) Eps)))))
                             p' s' final)
              end
          end = todoAt s).
  unfold Lit.
  rewrite (compile_Lit true false _ todoLeader _ K1).
  rewrite !(compile_Chr true false _ todoLeader _ K1). reflexivity.
Qed.

(** ** Todo fragments *)

Lemma litAt_split (l : jsstring) : forall s s',
  litAt true l s = Some s' ->
  exists m, s = m ++ s' /\ map canonicalize m = map canonicalize l.
Proof.
  induction l as [|a l IH]; intros s s' H; simpl in H.
  - injection H as ->. now exists [].
  - destruct s as [|c s]; [discriminate|].
    destruct (canonicalize a =? canonicalize c)%N eqn:E; [|discriminate].
    apply N.eqb_eq in E. apply IH in H. destruct H as (m & -> & Hm).
    exists (c :: m). simpl. now rewrite Hm, E.
Qed.

Lemma litAt_intro (l : jsstring) : forall m s',
  map canonicalize m = map canonicalize l ->
  litAt true l (m ++ s') = Some s'.
Proof.
  induction l as [|a l IH]; intros m s' H.
  - destruct m; [reflexivity|discriminate].
  - destruct m as [|c m]; [discriminate|]. simpl in H. injection H as Hc Hm.
    simpl. rewrite Hc, N.eqb_refl. now apply IH.
Qed.

Lemma litAt_head_differs (a : char) (l : jsstring) (c : char) (s : jsstring) :
  canonicalize a <> canonicalize c -> litAt true (a :: l) (c :: s) = None.
Proof.
  intros H. simpl. now apply N.eqb_neq in H as ->.
Qed.

Lemma canonicalize_symbol (c a : char) :
  canonicalize c = a -> (a < 65 \/ 90 < a)%N -> c = a.
Proof.
  unfold canonicalize. destruct ((97 <=? c) && (c <=? 122))%N eqn:R.
  - apply andb_true_iff in R. destruct R as [R1 R2].
    apply N.leb_le in R1, R2. lia.
  - auto.
Qed.

Lemma canonicalize_space (c : char) : isSpace c = true -> canonicalize c = c.
Proof.
  intros Hc. unfold canonicalize.
  destruct ((97 <=? c) && (c <=? 122))%N eqn:R; [|reflexivity].
  apply andb_true_iff in R. destruct R as [R1 R2].
  apply N.leb_le in R1, R2. unfold isSpace in Hc.
  repeat rewrite orb_true_iff in Hc. repeat rewrite andb_true_iff in Hc.
  repeat rewrite N.eqb_eq in Hc. repeat rewrite N.leb_le in Hc. lia.
Qed.

Lemma isKeyword_head (kw : jsstring) :
  isKeyword kw -> forall c, hd_error kw = Some c -> isSpace c = false.
Proof.
  intros Hk c Hc. destruct kw as [|a kw]; [discriminate|].
  injection Hc as ->. destruct (isSpace c) eqn:E; [|reflexivity].
  pose proof (canonicalize_space _ E) as Ec.
  destruct Hk as [H|H];
    [change (lit "TODO") with (84 :: lit "ODO")%N in H
    |change (lit "FIXME") with (70 :: lit "IXME")%N in H];
    simpl in H; injection H as H _; rewrite Ec in H; subst c; discriminate.
Qed.

Lemma dropWhile_length (f : char -> bool) (s : jsstring) :
  length (dropWhile f s) <= length s.
Proof.
  induction s as [|c s IH]; simpl; [lia|]. destruct (f c); simpl; lia.
Qed.

Lemma dropWhile_space_dot (s : jsstring) :
  length (dropWhile isDot (dropWhile isSpace s)) <= length (dropWhile isDot s).
Proof.
  induction s as [|c s IH]; simpl; [lia|].
  destruct (isSpace c); [|simpl; lia].
  destruct (isDot c); [exact IH|].
  pose proof (dropWhile_length isDot (dropWhile isSpace s)).
  pose proof (dropWhile_length isSpace s). simpl. lia.
Qed.

Lemma todoTail_reach (ws' text post e : jsstring) :
  Forall (fun c => isSpace c = true) ws' ->
  Forall (fun c => isLineTerminator c = false) text ->
  todoTail (ws' ++ text ++ post) = Some e ->
  length e <= length post.
Proof.
  intros Hws Htext H. unfold todoTail in H. injection H as <-.
  rewrite (@dropWhile_all _ _ _ Hws).
  pose proof (dropWhile_space_dot (text ++ post)) as H.
  rewrite (@dropWhile_all isDot text post) in H.
  - pose proof (dropWhile_length isDot post). lia.
  - eapply Forall_impl; [|exact Htext]. intros c Hc. simpl in Hc.
    unfold isDot. now rewrite Hc.
Qed.

Lemma todoColon_reach (colon ws' text post : jsstring) :
  colon = [] \/ colon = lit ":" ->
  Forall (fun c => isSpace c = true) ws' ->
  Forall (fun c => isLineTerminator c = false) text ->
  exists e, todoColon (colon ++ ws' ++ text ++ post) = Some e
            /\ length e <= length post.
Proof.
  intros [->| ->] Hws Htext; unfold todoColon, afterLit.
  - simpl app. destruct (litAt true (lit ":") (ws' ++ text ++ post))
      as [r|] eqn:E; simpl.
    + exists (dropWhile isDot (dropWhile isSpace r)). split; [reflexivity|].
      apply litAt_split in E. destruct E as (m & E & Hm).
      change (map canonicalize (lit ":")) with [58%N] in Hm.
      destruct m as [|c [|c' m]]; try discriminate. simpl in Hm.
      injection Hm as Hm. apply canonicalize_symbol in Hm; [|lia]. subst c.
      assert (H : todoTail (ws' ++ text ++ post)
                  = Some (dropWhile isDot r)).
      { unfold todoTail. rewrite E. reflexivity. }
      apply todoTail_reach in H; auto.
      pose proof (dropWhile_space_dot r). lia.
    + exists (dropWhile isDot (dropWhile isSpace (ws' ++ text ++ post))).
      split; [reflexivity|]. now apply (@todoTail_reach ws' text post).
  - rewrite (@litAt_intro (lit ":") (lit ":")) by reflexivity. simpl.
    exists (dropWhile isDot (dropWhile isSpace (ws' ++ text ++ post))).
    split; [reflexivity|]. now apply (@todoTail_reach ws' text post).
Qed.

Lemma todoKeyword_reach (kw rest post : jsstring) :
  isKeyword kw ->
  (exists e, todoColon rest = Some e /\ length e <= length post) ->
  exists e, todoKeyword (kw ++ rest) = Some e /\ length e <= length post.
Proof.
  intros [Hk|Hk] (e & He & Hl); unfold todoKeyword, afterLit.
  - rewrite (@litAt_intro (lit "TODO") kw) by exact Hk. rewrite He. simpl.
    now exists e.
  - destruct kw as [|a kw]; [discriminate|].
    assert (F : litAt true (lit "FIXME") ((a :: kw) ++ rest) = Some rest)
      by (apply litAt_intro; exact Hk).
    assert (N : litAt true (lit "TODO") ((a :: kw) ++ rest) = None).
    { change (lit "FIXME") with (70 :: lit "IXME")%N in Hk.
      simpl in Hk. injection Hk as Ha _.
      change (lit "TODO") with (84 :: lit "ODO")%N. simpl app.
      apply litAt_head_differs. rewrite Ha. intros X. vm_compute in X.
      discriminate X. }
    rewrite N, F, He. now exists e.
Qed.

(** Every fragment that starts the text is (a part of) the one the greedy
    reading takes. *)
Lemma todoAt_reach (frag post : jsstring) :
  TodoFragment frag ->
  exists e, todoAt (frag ++ post) = Some e /\ length e <= length post.
Proof.
  intros (leader & ws & kw & colon & ws' & text & -> & Hl & Hws & Hk & Hc
          & Hws' & Htext).
  assert (K : exists e,
             todoLeader (ws ++ kw ++ colon ++ ws' ++ text ++ post) = Some e
             /\ length e <= length post).
  { unfold todoLeader. rewrite (@dropWhile_all _ _ _ Hws).
    rewrite dropWhile_stop.
    - apply todoKeyword_reach; [exact Hk|]. now apply todoColon_reach.
    - intros c Hc'. apply (isKeyword_head Hk).
      destruct kw; [|exact Hc']. destruct Hk; discriminate. }
  destruct K as (e & He & Hle). exists e. split; [|exact Hle].
  rewrite <- !app_assoc. unfold todoAt, afterLit.
  destruct Hl as [->|[->| ->]].
  - rewrite (@litAt_intro (lit "//") (lit "//")) by reflexivity.
    now rewrite He.
  - simpl. now rewrite He.
  - simpl. now rewrite He.
Qed.

Lemma todoTail_shape (s e : jsstring) :
  todoTail s = Some e ->
  exists ws' text,
    s = ws' ++ text ++ e
    /\ Forall (fun c => isSpace c = true) ws'
    /\ Forall (fun c => isLineTerminator c = false) text.
Proof.
  unfold todoTail. intros H. injection H as <-.
  destruct (takeWhile_dropWhile isSpace s) as (E1 & A1 & _).
  destruct (takeWhile_dropWhile isDot (dropWhile isSpace s)) as (E2 & A2 & _).
  exists (takeWhile isSpace s), (takeWhile isDot (dropWhile isSpace s)).
  split; [now rewrite <- E2|]. split; [exact A1|].
  eapply Forall_impl; [|exact A2]. intros c Hc. simpl in Hc.
  unfold isDot in Hc. now destruct (isLineTerminator c).
Qed.

Lemma todoColon_shape (s e : jsstring) :
  todoColon s = Some e ->
  exists colon ws' text,
    s = colon ++ ws' ++ text ++ e
    /\ (colon = [] \/ colon = lit ":")
    /\ Forall (fun c => isSpace c = true) ws'
    /\ Forall (fun c => isLineTerminator c = false) text.
Proof.
  unfold todoColon, afterLit, orElse. intros H.
  destruct (litAt true (lit ":") s) as [r|] eqn:E.
  - simpl in H. apply litAt_split in E. destruct E as (m & -> & Hm).
    change (map canonicalize (lit ":")) with [58%N] in Hm.
    destruct m as [|c [|c' m]]; try discriminate. simpl in Hm.
    injection Hm as Hm. apply canonicalize_symbol in Hm; [|lia]. subst c.
    destruct (todoTail_shape H) as (ws' & text & -> & Hws & Htext).
    exists (lit ":"), ws', text. auto.
  - destruct (todoTail_shape H) as (ws' & text & -> & Hws & Htext).
    exists [], ws', text. auto.
Qed.

Lemma todoKeyword_shape (s e : jsstring) :
  todoKeyword s = Some e ->
  exists kw rest, s = kw ++ rest /\ isKeyword kw /\ todoColon rest = Some e.
Proof.
  unfold todoKeyword, afterLit, orElse. intros H.
  destruct (litAt true (lit "TODO") s) as [r|] eqn:E.
  - destruct (todoColon r) as [e'|] eqn:E'.
    + injection H as ->. apply litAt_split in E. destruct E as (m & -> & Hm).
      exists m, r. split; [reflexivity|]. split; [now left|exact E'].
    + destruct (litAt true (lit "FIXME") s) as [r'|] eqn:F; [|discriminate].
      apply litAt_split in F. destruct F as (m & -> & Hm).
      exists m, r'. split; [reflexivity|]. split; [now right|exact H].
  - destruct (litAt true (lit "FIXME") s) as [r'|] eqn:F; [|discriminate].
    apply litAt_split in F. destruct F as (m & -> & Hm).
    exists m, r'. split; [reflexivity|]. split; [now right|exact H].
Qed.

Lemma todoLeader_shape (leader s e : jsstring) :
  isLeader leader -> todoLeader s = Some e ->
  exists frag, leader ++ s = frag ++ e /\ TodoFragment frag.
Proof.
  intros Hl H. unfold todoLeader in H.
  destruct (takeWhile_dropWhile isSpace s) as (E1 & A1 & _).
  apply todoKeyword_shape in H. destruct H as (kw & rest & E2 & Hk & H).
  apply todoColon_shape in H.
  destruct H as (colon & ws' & text & -> & Hc & Hws' & Htext).
  exists (leader ++ takeWhile isSpace s ++ kw ++ colon ++ ws' ++ text). split.
  - rewrite E1 at 1. rewrite E2. now rewrite <- !app_assoc.
  - exists leader, (takeWhile isSpace s), kw, colon, ws', text. auto 10.
Qed.

(** What the greedy reading takes is a fragment. *)
Lemma todoAt_shape (s e : jsstring) :
  todoAt s = Some e -> exists frag, s = frag ++ e /\ TodoFragment frag.
Proof.
  assert (G : forall l, isLeader l -> map canonicalize l = l ->
              (forall m, map canonicalize m = l -> m = l) ->
              forall e', afterLit l todoLeader s = Some e' ->
              exists frag, s = frag ++ e' /\ TodoFragment frag).
  { intros l Hl Hcl Hm e' H. unfold afterLit in H.
    destruct (litAt true l s) as [r|] eqn:E; [|discriminate].
    apply litAt_split in E. destruct E as (m & -> & Em).
    rewrite Hcl in Em. apply Hm in Em. subst m.
    now apply todoLeader_shape. }
  assert (C1 : forall m, map canonicalize m = lit "//" -> m = lit "//").
  { intros [|a [|b [|c m]]] H; try discriminate. simpl in H.
    injection H as Ha Hb. apply canonicalize_symbol in Ha, Hb; try lia.
    now subst. }
  assert (C2 : forall m, map canonicalize m = lit "#" -> m = lit "#").
  { intros [|a [|b m]] H; try discriminate. simpl in H.
    injection H as Ha. apply canonicalize_symbol in Ha; try lia. now subst. }
  assert (C3 : forall m, map canonicalize m = lit "*" -> m = lit "*").
  { intros [|a [|b m]] H; try discriminate. simpl in H.
    injection H as Ha. apply canonicalize_symbol in Ha; try lia. now subst. }
  unfold todoAt, orElse. intros H.
  destruct (afterLit (lit "//") todoLeader s) as [e1|] eqn:E1.
  - injection H as ->. apply (G (lit "//")); auto. now left.
  - destruct (afterLit (lit "#") todoLeader s) as [e2|] eqn:E2.
    + injection H as ->. apply (G (lit "#")); auto. right; now left.
    + apply (G (lit "*")); auto. right; now right.
Qed.

(** ** Where the matches of a global expression lie *)

Section ScanFacts.
Variable f : option char -> jsstring -> option jsstring.
Hypothesis f_suffix : forall p s e, f p s = Some e -> exists m, s = m ++ e.

Lemma firstn_matched (m e : jsstring) :
  firstn (length (m ++ e) - length e) (m ++ e) = m.
Proof.
  rewrite length_app. replace (length m + length e - length e) with (length m)
    by lia.
  rewrite firstn_app, Nat.sub_diag, firstn_all. simpl. apply app_nil_r.
Qed.

Lemma Located_cons i skip skip' p c s m :
  skip' <= S skip ->
  Located f (S i) skip (Some c) s m -> Located f i skip' p (c :: s) m.
Proof.
  intros Hs (pre & post & -> & Hi & Hk & Hf).
  exists (c :: pre), post. simpl. repeat split; auto; lia.
Qed.

Lemma scan_located s : forall i skip p,
  Forall (Located f i skip p s) (scan f i skip p s).
Proof.
  induction s as [|c s IH]; intros i skip p.
  - destruct skip as [|k]; [|constructor].
    rewrite scan_attempt. destruct (f p []) as [e|] eqn:E; [|constructor].
    constructor; [|constructor].
    destruct (f_suffix E) as (m & Em).
    destruct m; [|discriminate]. destruct e; [|discriminate].
    exists [], []. simpl. repeat split; auto.
  - destruct skip as [|k].
    + rewrite scan_attempt. destruct (f p (c :: s)) as [e|] eqn:E.
      * constructor.
        -- destruct (f_suffix E) as (m & Em). rewrite Em.
           rewrite firstn_matched. exists [], e. simpl.
           repeat split; auto. now rewrite <- Em.
        -- eapply Forall_impl; [|apply IH]. intros m.
           apply Located_cons. lia.
      * eapply Forall_impl; [|apply IH]. intros m.
        apply Located_cons. lia.
    + simpl. eapply Forall_impl; [|apply IH]. intros m.
      apply Located_cons. lia.
Qed.

Lemma scan_sorted s : forall i skip p,
  StronglySorted Before (scan f i skip p s).
Proof.
  induction s as [|c s IH]; intros i skip p.
  - destruct skip as [|k]; [|constructor].
    rewrite scan_attempt. destruct (f p []); repeat constructor.
  - destruct skip as [|k]; [|simpl; apply IH].
    rewrite scan_attempt. destruct (f p (c :: s)) as [e|] eqn:E; [|apply IH].
    constructor; [apply IH|].
    eapply Forall_impl; [|apply scan_located].
    intros m (pre & post & _ & Hi & Hk & _). unfold Before. simpl fst.
    simpl snd. rewrite length_firstn. simpl in *. lia.
Qed.

(** A position at which an attempt succeeds is the start of a match or lies
    inside an earlier one. *)
Lemma scan_covers s : forall i skip p pre suf,
  s = pre ++ suf -> skip <= length pre ->
  (exists e, f (lastOf p pre) suf = Some e) ->
  exists m,
    In m (scan f i skip p s)
    /\ fst m <= i + length pre
    /\ (i + length pre < fst m + length (snd m) \/ fst m = i + length pre).
Proof.
  induction s as [|c s IH]; intros i skip p pre suf Es Hk [e He].
  - destruct pre; [|discriminate]. destruct suf; [|discriminate].
    simpl in Hk. assert (skip = 0) by lia. subst skip.
    rewrite scan_attempt. simpl in He. rewrite He.
    exists (i, firstn (length (@nil char) - length e) []). simpl.
    repeat split; auto; lia.
  - destruct pre as [|c' pre].
    + simpl in Hk. assert (skip = 0) by lia. subst skip.
      simpl in Es, He. subst suf. rewrite scan_attempt, He.
      eexists. split; [now left|]. simpl. split; [lia|right; lia].
    + simpl in Es. injection Es as <- ->. simpl in He.
      destruct skip as [|k].
      * rewrite scan_attempt.
        destruct (f p (c :: pre ++ suf)) as [e0|] eqn:E0.
        -- set (len := length (c :: pre ++ suf) - length e0).
           destruct (Nat.le_gt_cases (pred len) (length pre)) as [Hle|Hgt].
           ++ destruct (IH (S i) (pred len) (Some c) pre suf eq_refl Hle)
                as (m & Hin & H1 & H2); [now exists e|].
              exists m. split; [now right|]. simpl. split; [lia|].
              destruct H2; [left|right]; lia.
           ++ exists (i, firstn len (c :: pre ++ suf)). split; [now left|].
              simpl fst. simpl snd. rewrite length_firstn.
              assert (len <= length (c :: pre ++ suf)) by (unfold len; lia).
              simpl length in *. split; [lia|left; lia].
        -- destruct (IH (S i) 0 (Some c) pre suf eq_refl ltac:(lia))
             as (m & Hin & H1 & H2); [now exists e|].
           exists m. split; [exact Hin|]. simpl. split; [lia|].
           destruct H2; [left|right]; lia.
      * simpl in Hk. simpl scan.
        destruct (IH (S i) k (Some c) pre suf eq_refl ltac:(lia))
          as (m & Hin & H1 & H2); [now exists e|].
        exists m. split; [exact Hin|]. simpl. split; [lia|].
        destruct H2; [left|right]; lia.
Qed.
End ScanFacts.

(** ** The todo fragments of a text *)

Lemma matchHere_todo_suffix p s e :
  matchHere todoRegex p s = Some e -> exists m, s = m ++ e.
Proof.
  rewrite matchHere_todoAt. intros H. apply todoAt_shape in H.
  destruct H as (frag & -> & _). now exists frag.
Qed.

Lemma TodoFragment_nonempty (frag : jsstring) :
  TodoFragment frag -> 1 <= length frag.
Proof.
  intros (leader & ws & kw & colon & ws' & text & -> & Hl & _).
  rewrite length_app. destruct Hl as [->|[->| ->]]; simpl; lia.
Qed.

Lemma matchAll_todo_fragments (T : jsstring) :
  Forall (FragmentAt T) (matchAll todoRegex T).
Proof.
  unfold matchAll. eapply Forall_impl;
    [|apply (@scan_located _ matchHere_todo_suffix)].
  intros m (pre & post & E & Hi & _ & Hf). rewrite matchHere_todoAt in Hf.
  exists pre, post. split; [exact E|]. split; [simpl in Hi; lia|].
  destruct (@todoAt_shape _ _ Hf) as (frag & Efrag & Hfrag).
  apply app_inv_tail in Efrag. subst frag. split; [exact Hfrag|].
  intros frag' post' E' Hfrag'.
  destruct (@todoAt_reach _ post' Hfrag') as (e & He & Hle).
  rewrite <- E', Hf in He. injection He as <-.
  apply (f_equal (@length char)) in E'. rewrite !length_app in E'. lia.
Qed.

Lemma findTodos_trimmed (ms : list jsmatch) :
  Forall2 (fun (m : jsmatch) todo => TrimOf (snd m) todo) ms
          (map (fun m : jsmatch => trim (snd m)) ms).
Proof.
  induction ms as [|m ms IH]; simpl; constructor; auto. apply trim_TrimOf.
Qed.

(** C2.  The texts returned are, one for one and in the same order, the
    trimmed todo fragments of the text: each fragment starts at its offset
    with a leader [//], [#] or [*], white space, [TODO] or [FIXME] in any
    case, an optional colon, white space and the rest of a line, and is the
    longest such fragment there; the offsets increase and the fragments do
    not overlap; and every place where such a fragment starts is the start of
    a returned fragment or lies inside one (the white space of a fragment may
    hold line ends, and its last line may hold further markers).  Nothing is
    removed, so equal fragments are returned as often as they occur. *)
Theorem findTodos_fragments (T : jsstring) :
  Forall2 (fun (m : jsmatch) todo => TrimOf (snd m) todo)
          (matchAll todoRegex T) (findTodos T)
  /\ Forall (FragmentAt T) (matchAll todoRegex T)
  /\ StronglySorted Before (matchAll todoRegex T)
  /\ (forall pre frag post,
         T = pre ++ frag ++ post -> TodoFragment frag ->
         exists m, In m (matchAll todoRegex T)
                   /\ fst m <= length pre < fst m + length (snd m))
  /\ findTodos (lit "// TODO: a" ++ nl ++ lit "x(); # fixme b " ++ nl
                ++ lit "/* " ++ nl ++ lit " * ToDo c" ++ nl ++ lit "// TODO: a")
     = [lit "// TODO: a"; lit "# fixme b"; lit "* ToDo c"; lit "// TODO: a"].
Proof.
  split; [apply findTodos_trimmed|].
  split; [apply matchAll_todo_fragments|].
  split; [apply (@scan_sorted _ matchHere_todo_suffix)|].
  split; [|vm_compute; reflexivity].
  intros pre frag post -> Hfrag.
  destruct (@todoAt_reach _ post Hfrag) as (e & He & _).
  destruct (@scan_covers (matchHere todoRegex) (pre ++ frag ++ post) 0 0 None
              pre (frag ++ post) eq_refl (Nat.le_0_l _))
    as (m & Hin & H1 & H2).
  { exists e. now rewrite matchHere_todoAt. }
  exists m. split; [exact Hin|]. simpl in H1, H2. split; [exact H1|].
  destruct H2 as [H2|H2]; [exact H2|].
  pose proof (matchAll_todo_fragments (pre ++ frag ++ post)) as HF.
  rewrite Forall_forall in HF. destruct (HF m Hin) as (_ & _ & _ & _ & Hm & _).
  apply TodoFragment_nonempty in Hm. lia.
Qed.

(** * Further properties *)

(** ** Line counting over several texts and under padding *)

Lemma split_app (sep : char) (a b : jsstring) :
  split sep (a ++ sep :: b) = split sep a ++ split sep b.
Proof.
  induction a as [|c a IH]; simpl.
  - now rewrite N.eqb_refl.
  - destruct (c =? sep)%N; rewrite IH; [reflexivity|].
    destruct (split sep a) as [|l ls] eqn:E; [|reflexivity].
    now destruct (split_nonempty sep a).
Qed.

Lemma split_length (sep : char) (s : jsstring) :
  length (split sep s) = S (length (filter (N.eqb sep) s)).
Proof.
  induction s as [|c s IH]; simpl; [reflexivity|].
  rewrite (N.eqb_sym sep c). destruct (c =? sep)%N; simpl.
  - now rewrite IH.
  - destruct (split sep s); simpl in *; lia.
Qed.

(** X1.  The line count of two texts joined by a line feed is the sum of
    their line counts, and the line count of a text is at most the number of
    its lines, one more than its line feeds. *)
Theorem countLines_additive (a b : jsstring) :
  countLines (a ++ nl ++ b) = countLines a + countLines b
  /\ countLines a <= S (length (filter (N.eqb Ch.lf) a)).
Proof.
  unfold countLines. split.
  - change (a ++ nl ++ b) with (a ++ Ch.lf :: b).
    now rewrite split_app, filter_app, length_app.
  - rewrite <- split_length. apply filter_length_le.
Qed.

Lemma TrimOf_padding (ws line ws' t : jsstring) :
  Forall (fun c => isSpace c = true) ws ->
  Forall (fun c => isSpace c = true) ws' ->
  TrimOf line t -> TrimOf (ws ++ line ++ ws') t.
Proof.
  intros Hws Hws' (a & b & -> & Ha & Hb & Hh & Hl).
  exists (ws ++ a), (b ++ ws'). repeat split; auto.
  - now rewrite <- !app_assoc.
  - apply Forall_app; auto.
  - apply Forall_app; auto.
Qed.

(** X2.  White space before and after a line, such as its indentation or
    the carriage return of a CRLF line end, changes neither its trimmed form
    nor whether it is counted. *)
Theorem isCodeLine_padding (ws line ws' : jsstring) :
  Forall (fun c => isSpace c = true) ws ->
  Forall (fun c => isSpace c = true) ws' ->
  trim (ws ++ line ++ ws') = trim line
  /\ isCodeLine (ws ++ line ++ ws') = isCodeLine line.
Proof.
  intros Hws Hws'.
  assert (E : trim (ws ++ line ++ ws') = trim line).
  { apply TrimOf_trim, TrimOf_padding; auto. apply trim_TrimOf. }
  split; [exact E|]. unfold isCodeLine. now rewrite E.
Qed.

(** A tab before and a carriage return after a statement. *)
Lemma isCodeLine_padding_witness :
  isCodeLine ([9%N] ++ lit "x = 1;" ++ [13%N]) = isCodeLine (lit "x = 1;")
  /\ isCodeLine (lit "x = 1;") = true.
Proof.
  split; [|reflexivity].
  apply (@isCodeLine_padding [9%N] (lit "x = 1;") [13%N]);
    repeat constructor.
Defined.

(** ** Eligible files *)

Lemma endsWith_Suffix (s suf : jsstring) :
  endsWith s suf = true <-> Suffix suf s.
Proof.
  unfold endsWith. rewrite startsWith_Prefix. split.
  - intros [r E]. exists (rev r).
    apply (f_equal (@rev char)) in E.
    now rewrite rev_involutive, rev_app_distr, rev_involutive in E.
  - intros [stem ->]. exists (rev stem). apply rev_app_distr.
Qed.

(** X3.  A changed file is analyzed exactly when its name ends in [.js],
    [.tsx] or [.ts], in lower case, and its patch is a non-empty text. *)
Theorem eligible_iff (file : ChangedFile) :
  eligible file = true
  <-> (Suffix (lit ".js") (filename file)
       \/ Suffix (lit ".tsx") (filename file)
       \/ Suffix (lit ".ts") (filename file))
      /\ exists c p, patch file = Some (c :: p).
Proof.
  unfold eligible.
  rewrite andb_true_iff, !orb_true_iff, !endsWith_Suffix.
  assert (H : truthy (patch file) = true
              <-> exists c p, patch file = Some (c :: p)).
  { unfold truthy. destruct (patch file) as [[|c p]|]; split;
      try discriminate; try (intros (c' & p' & E); discriminate).
    - intros _. now exists c, p.
    - reflexivity. }
  rewrite H. tauto.
Qed.

(** ** The matches of any of the expressions *)

Lemma matchHere_suffix (re : RegExp) p s e :
  matchHere re p s = Some e -> exists m, s = m ++ e.
Proof.
  intros H. apply matchAt_sound in H. destruct H as [p' M].
  destruct (Matches_position M) as (m & -> & _). now exists m.
Qed.

Lemma scan_length (f : option char -> jsstring -> option jsstring) s :
  forall i skip p, length (scan f i skip p s) <= S (length s).
Proof.
  induction s as [|c s IH]; intros i skip p.
  - destruct skip; simpl; [destruct (f p [])|]; simpl; lia.
  - destruct skip as [|k].
    + rewrite scan_attempt. destruct (f p (c :: s)); simpl.
      * pose proof (IH (S i) (pred (length (c :: s) - length j)) (Some c)).
        simpl in *. lia.
      * pose proof (IH (S i) 0 (Some c)). lia.
    + simpl. pose proof (IH (S i) k (Some c)). lia.
Qed.

(** X4.  For each of the expressions, every match reported lies in the text
    at its index and is a text the pattern matches there; the matches come in
    increasing order of index and do not overlap; and there are at most one
    more of them than the text has units, which bounds the method count. *)
Theorem matchAll_located (re : RegExp) (T : jsstring) :
  Forall (fun m : jsmatch =>
            exists pre post p',
              T = pre ++ snd m ++ post
              /\ length pre = fst m
              /\ Matches (ignoreCase re) (multiline re) (pattern re)
                         (lastOf None pre) (snd m ++ post) p' post)
         (matchAll re T)
  /\ StronglySorted Before (matchAll re T)
  /\ length (matchAll re T) <= S (length T)
  /\ countMethods T <= 3 * S (length T).
Proof.
  split; [|split; [|split]].
  - unfold matchAll. eapply Forall_impl;
      [|apply (@scan_located _ (@matchHere_suffix re))].
    intros m (pre & post & E & Hi & _ & Hf).
    apply matchAt_sound in Hf. destruct Hf as [p' M].
    exists pre, post, p'. split; [exact E|].
    split; [simpl in Hi; lia|exact M].
  - apply (@scan_sorted _ (@matchHere_suffix re)).
  - apply scan_length.
  - unfold countMethods. rewrite !length_String_match.
    pose proof (scan_length (matchHere functionRegex) T 0 0 None).
    pose proof (scan_length (matchHere arrowFunctionRegex) T 0 0 None).
    pose proof (scan_length (matchHere regularFunctionRegex) T 0 0 None).
    unfold matchAll. lia.
Qed.

(** ** Texts that cannot hold a method *)

Lemma consumesOneOf_Matches (cs : list char) (mline : bool) r p s p' s' :
  Matches false mline r p s p' s' ->
  consumesOneOf cs r = true ->
  exists m c, s = m ++ s' /\ In c cs /\ In c m.
Proof.
  induction 1 as [p s|c c' p s Hc|c p s Hc|c p s Hc|c p s Hc|p s Hb
                  |r1 r2 p s p1 s1 p2 s2 M1 IH1 M2 IH2
                  |r1 r2 p s p' s' _ IH|r1 r2 p s p' s' _ IH
                  |r p s|r p s p1 s1 p2 s2 _ IH1 L _ IH2];
    simpl; try discriminate.
  - intros H. apply existsb_exists in H. destruct H as (x & Hx & E).
    apply N.eqb_eq in E. subst x. simpl in Hc. apply N.eqb_eq in Hc. subst c'.
    exists [c], c. repeat split; auto. now left.
  - intros H. apply orb_true_iff in H.
    destruct (Matches_position M1) as (m1 & E1 & _).
    destruct (Matches_position M2) as (m2 & E2 & _). subst.
    destruct H as [H|H].
    + destruct (IH1 H) as (m & c & E & Hc & Hm).
      apply app_inv_tail in E. subst m.
      exists (m1 ++ m2), c. rewrite <- app_assoc. repeat split; auto.
      apply in_or_app. now left.
    + destruct (IH2 H) as (m & c & E & Hc & Hm).
      apply app_inv_tail in E. subst m.
      exists (m1 ++ m2), c. rewrite <- app_assoc. repeat split; auto.
      apply in_or_app. now right.
  - intros H. apply andb_true_iff in H. now apply IH.
  - intros H. apply andb_true_iff in H. now apply IH.
Qed.

Lemma NoMatch_without (cs : list char) (re : RegExp) (T : jsstring) :
  ignoreCase re = false ->
  consumesOneOf cs (pattern re) = true ->
  (forall c, In c cs -> ~ In c T) ->
  NoMatch re T.
Proof.
  intros Hi Hc HT pre suf p' s' -> M. rewrite Hi in M.
  destruct (consumesOneOf_Matches cs M Hc) as (m & c & -> & Hcs & Hm).
  apply (HT c Hcs). apply in_or_app. right. apply in_or_app. now left.
Qed.

(** X5.  A text with no opening parenthesis and no letter [f] has no match
    of any of the three expressions: its method count is 0. *)
Theorem countMethods_none (T : jsstring) :
  ~ In Ch.lparen T -> ~ In 102%N T -> countMethods T = 0.
Proof.
  intros Hp Hf.
  assert (HT : forall c, In c [Ch.lparen; 102%N] -> ~ In c T).
  { intros c [<-|[<-|[]]]; assumption. }
  unfold countMethods.
  rewrite (proj1 (NoMatch_iff functionRegex T)),
    (proj1 (NoMatch_iff arrowFunctionRegex T)),
    (proj1 (NoMatch_iff regularFunctionRegex T)); [reflexivity| | |];
    apply (@NoMatch_without [Ch.lparen; 102%N]); auto.
Qed.

(** A declaration without a call. *)
Lemma countMethods_none_witness :
  countMethods (lit "let total = a + b;") = 0.
Proof.
  apply countMethods_none; apply absent_by_test; reflexivity.
Defined.

(** ** The texts findTodos returns *)

Lemma isKeyword_no_space (kw : jsstring) :
  isKeyword kw -> Forall (fun c => isSpace c = false) kw /\ 4 <= length kw.
Proof.
  intros Hk.
  assert (G : forall w l, map canonicalize w = l ->
              Forall (fun c => isSpace c = false) l ->
              Forall (fun c => isSpace c = false) w).
  { intros w l <- H. induction w as [|c w IH]; [constructor|].
    simpl in H. inversion H as [|x xs Hc Hrest]; subst.
    constructor; [|apply IH; auto].
    destruct (isSpace c) eqn:E; [|reflexivity].
    rewrite (canonicalize_space _ E) in Hc. congruence. }
  destruct Hk as [H|H]; split;
    try (apply (G _ _ H); repeat constructor);
    apply (f_equal (@length char)) in H; rewrite length_map in H;
    rewrite H; simpl; lia.
Qed.

Lemma trim_tail_only (s : jsstring) :
  (forall c, hd_error s = Some c -> isSpace c = false) ->
  exists b, s = trim s ++ b /\ Forall (fun c => isSpace c = true) b.
Proof.
  intros Hh. unfold trim. rewrite (dropWhile_stop isSpace s Hh).
  destruct (takeWhile_dropWhile isSpace (rev s)) as (E & A & _).
  exists (rev (takeWhile isSpace (rev s))). split.
  - rewrite <- rev_app_distr, <- E. now rewrite rev_involutive.
  - now apply Forall_rev.
Qed.

Lemma keep_before_spaces (x b y z : jsstring) (k : char) :
  x ++ b = (y ++ [k]) ++ z ->
  Forall (fun c => isSpace c = true) b -> isSpace k = false ->
  exists z', x = (y ++ [k]) ++ z'.
Proof.
  intros E Hb Hk. apply app_eq_app in E.
  destruct E as [l [[-> _]|[E ->]]]; [now exists l|].
  induction l as [|c l0 _] using rev_ind.
  - rewrite app_nil_r in E. subst x. exists []. now rewrite app_nil_r.
  - rewrite app_assoc in E. apply app_inj_tail in E. destruct E as [_ <-].
    apply Forall_app in Hb. destruct Hb as [Hb _].
    apply Forall_app in Hb. destruct Hb as [_ Hb].
    inversion Hb; subst. congruence.
Qed.

(** X6.  Every text returned starts with one of the leaders followed by
    white space and the keyword, so it is never empty and holds at least five
    units, and it neither starts nor ends with white space. *)
Theorem findTodos_entries (T : jsstring) :
  Forall (fun todo =>
            (exists leader ws kw rest,
                todo = leader ++ ws ++ kw ++ rest
                /\ isLeader leader
                /\ Forall (fun c => isSpace c = true) ws
                /\ isKeyword kw)
            /\ 5 <= length todo
            /\ TrimOf todo todo)
         (findTodos T).
Proof.
  unfold findTodos. apply Forall_map.
  eapply Forall_impl; [|apply matchAll_todo_fragments].
  intros m (pre & post & _ & _ & Hm & _).
  destruct Hm as (leader & ws & kw & colon & ws' & text & E & Hl & Hws & Hk
                  & _).
  destruct (isKeyword_no_space Hk) as [Hns Hlen].
  assert (Hhead : forall c, hd_error (snd m) = Some c -> isSpace c = false).
  { rewrite E. destruct Hl as [->|[->| ->]]; intros c Hc; injection Hc as <-;
      reflexivity. }
  destruct (trim_tail_only _ Hhead) as (b & Eb & Hb).
  assert (Hlast : exists kw0 k, kw = kw0 ++ [k]).
  { destruct kw as [|c kw] using rev_ind; [simpl in Hlen; lia|].
    now exists kw, c. }
  destruct Hlast as (kw0 & k & Ek).
  assert (Hk' : isSpace k = false).
  { rewrite Ek in Hns. apply Forall_app in Hns. destruct Hns as [_ Hns].
    now inversion Hns. }
  assert (S1 : exists z, trim (snd m) = leader ++ ws ++ kw ++ z).
  { destruct (@keep_before_spaces (trim (snd m)) b (leader ++ ws ++ kw0)
                (colon ++ ws' ++ text) k) as [z Ez]; auto.
    - rewrite <- Eb, E, Ek. now rewrite <- !app_assoc.
    - exists z. rewrite Ez, Ek. now rewrite <- !app_assoc. }
  destruct S1 as [z Ez]. split; [|split].
  - exists leader, ws, kw, z. auto.
  - rewrite Ez, !length_app.
    assert (1 <= length leader) by (destruct Hl as [->|[->| ->]]; simpl; lia).
    lia.
  - pose proof (trim_TrimOf (snd m)) as (a' & b' & _ & _ & _ & H1 & H2).
    exists [], []. rewrite app_nil_r. repeat split; auto.
Qed.

(** ** What the loop accumulates *)

Section LoopFacts.
Variable World : Type.
Variable getContent : jsstring -> World -> (jsstring + jsstring) * World.

Lemma processFile_log st file :
  map logName (log (processFile getContent st file))
  = map logName (log st) ++ (if eligible file then [filename file] else []).
Proof.
  unfold processFile. simpl. destruct (eligible file).
  - unfold analyzeFile.
    destruct (getContent (filename file) (world st)) as [[message|content] w];
      simpl; now rewrite map_app.
  - now rewrite app_nil_r.
Qed.

(** X7.  The loop requests the content of each eligible file once, in the
    order of the file list, and writes exactly one log entry for each
    request, about that file and in the same order. *)
Theorem one_log_entry_per_request (files : list ChangedFile) (w : World) :
  map logName (log (aggregate getContent files w))
  = requested (aggregate getContent files w)
  /\ requested (aggregate getContent files w)
     = map filename (filter eligible files)
  /\ length (log (aggregate getContent files w))
     = length (filter eligible files).
Proof.
  assert (G : forall l st,
             map logName (log (processFiles getContent st l))
             = map logName (log st) ++ map filename (filter eligible l)).
  { induction l as [|file l IH]; intros st.
    - simpl. now rewrite app_nil_r.
    - rewrite processFiles_cons, IH, processFile_log. simpl.
      destruct (eligible file); simpl; now rewrite <- app_assoc. }
  assert (R := processFiles_requested getContent files (initialState w)).
  unfold aggregate. rewrite R. simpl. split; [apply G|]. split; [reflexivity|].
  rewrite <- (length_map logName), G. simpl. apply length_map.
Qed.

Variable fetch : jsstring -> jsstring + jsstring.
Hypothesis stateless : forall name w, fst (getContent name w) = fetch name.

Lemma processFile_contribution st file :
  issues (found (processFile getContent st file))
  = issues (found st) ++ pushedIssues (contribution fetch file)
  /\ todoComments (found (processFile getContent st file))
     = todoComments (found st) ++ pushedTodos (contribution fetch file).
Proof.
  unfold processFile, contribution. simpl.
  destruct (bookkeeping_lines
              (found (if eligible file
                      then analyzeFile getContent st (filename file)
                      else st)) (filename file)) as [-> ->].
  destruct (eligible file); [|now rewrite !app_nil_r].
  unfold analyzeFile. rewrite <- (stateless (filename file) (world st)).
  destruct (getContent (filename file) (world st)) as [[message|content] w];
    simpl; [now rewrite !app_nil_r|].
  rewrite applyPush_fold. auto.
Qed.

(** X8.  When the answer to a content request depends on the path only,
    the issues and the todo entries of a pull request are those of its files
    one after the other, in the order of the file list: a file adds nothing
    when it is not eligible or its content cannot be fetched. *)
Theorem findings_in_file_order (files : list ChangedFile) (w : World) :
  issues (found (aggregate getContent files w))
  = pushedIssues (flat_map (contribution fetch) files)
  /\ todoComments (found (aggregate getContent files w))
     = pushedTodos (flat_map (contribution fetch) files).
Proof.
  assert (G : forall l st,
             issues (found (processFiles getContent st l))
             = issues (found st)
               ++ pushedIssues (flat_map (contribution fetch) l)
             /\ todoComments (found (processFiles getContent st l))
                = todoComments (found st)
                  ++ pushedTodos (flat_map (contribution fetch) l)).
  { induction l as [|file l IH]; intros st.
    - simpl. now rewrite !app_nil_r.
    - rewrite processFiles_cons. destruct (IH (processFile getContent st file))
        as [-> ->].
      destruct (processFile_contribution st file) as [-> ->]. simpl.
      now rewrite pushedIssues_app, pushedTodos_app, <- !app_assoc. }
  apply (G files (initialState w)).
Qed.
End LoopFacts.

(** Two eligible files with the same text and an image between them. *)
Lemma findings_in_file_order_witness :
  todoComments
    (found (aggregate quietService
              [mkFile (lit "a.js") (Some (lit "@@"));
               mkFile (lit "b.png") (Some (lit "@@"));
               mkFile (lit "c.ts") (Some (lit "@@"))] tt))
  = [lit "- `a.js`: // FIXME later"; lit "- `c.ts`: // FIXME later"].
Proof.
  rewrite (proj2 (@findings_in_file_order unit quietService
                    (fun _ => inr (lit "// FIXME later"))
                    (fun _ _ => eq_refl) _ tt)).
  vm_compute. reflexivity.
Defined.

(** ** When no content can be fetched *)

Section NoContent.
Variable World : Type.
Variable getContent : jsstring -> World -> (jsstring + jsstring) * World.

(** X9.  When every content request fails, the findings hold no issue and
    no todo entry, only the two package flags, and the comment composed from
    them says that no major issue was found. *)
Theorem all_requests_fail (files : list ChangedFile) (w : World) :
  (forall name w', exists message, fst (getContent name w') = inl message) ->
  found (aggregate getContent files w)
  = mkFindings [] []
      (existsb (fun file => strEq (filename file) (lit "package.json")) files)
      (existsb (fun file => strEq (filename file) (lit "package-lock.json"))
               files)
  /\ Prefix (title ++ noIssuesLine)
            (compose (found (aggregate getContent files w))).
Proof.
  intros Hfail.
  assert (G : forall l st,
             issues (found (processFiles getContent st l)) = issues (found st)
             /\ todoComments (found (processFiles getContent st l))
                = todoComments (found st)).
  { induction l as [|file l IH]; intros st; [auto|].
    rewrite processFiles_cons. destruct (IH (processFile getContent st file))
      as [-> ->].
    unfold processFile. simpl.
    destruct (bookkeeping_lines
                (found (if eligible file
                        then analyzeFile getContent st (filename file)
                        else st)) (filename file)) as [-> ->].
    destruct (eligible file); [|auto]. unfold analyzeFile.
    destruct (Hfail (filename file) (world st)) as [m Hm].
    destruct (getContent (filename file) (world st)) as [[m'|c] w'];
      simpl in *; [auto|discriminate]. }
  destruct (G files (initialState w)) as [Hi Ht].
  destruct (processFiles_flags getContent files (initialState w)) as [Hj Hl].
  assert (E : found (aggregate getContent files w)
              = mkFindings [] []
                  (existsb (fun file => strEq (filename file)
                                              (lit "package.json")) files)
                  (existsb (fun file => strEq (filename file)
                                              (lit "package-lock.json"))
                           files)).
  { unfold aggregate.
    destruct (found (processFiles getContent (initialState w) files))
      as [i t j l]. simpl in *. now subst. }
  split; [exact E|]. rewrite E. unfold compose, issuesSection.
  cbn [issues todoComments pkgJsonModified pkgLockModified].
  change (0 <? length (@nil jsstring)) with false. cbv iota.
  match goal with
  | |- Prefix _ (if ?b then _ else _) => destruct b
  end.
  - now exists lockWarning.
  - exists []. now rewrite app_nil_r.
Qed.
End NoContent.

(** Two eligible files whose content cannot be fetched. *)
Lemma all_requests_fail_witness :
  compose (found (aggregate brokenService
                    [mkFile (lit "a.js") (Some (lit "@@"));
                     mkFile (lit "b.ts") (Some (lit "@@"))] tt))
  = title ++ noIssuesLine.
Proof.
  destruct (@all_requests_fail unit brokenService
              [mkFile (lit "a.js") (Some (lit "@@"));
               mkFile (lit "b.ts") (Some (lit "@@"))] tt
              (fun _ _ => ex_intro _ (lit "Not Found") eq_refl)) as [E _].
  rewrite E. reflexivity.
Defined.

(** ** The shape of the comment *)

Lemma Infix_join (sep e : jsstring) (l : list jsstring) :
  In e l -> Infix e (join sep l).
Proof.
  induction l as [|x l IH]; [intros []|].
  intros [->|H].
  - destruct l as [|y l].
    + exists [], []. simpl. now rewrite app_nil_r.
    + exists [], (sep ++ join sep (y :: l)). reflexivity.
  - destruct (IH H) as (a & b & E). destruct l as [|y l]; [destruct H|].
    exists (x ++ sep ++ a), b.
    change (join sep (x :: y :: l)) with (x ++ sep ++ join sep (y :: l)).
    rewrite E. now rewrite <- !app_assoc.
Qed.

Lemma Infix_within (e s a b : jsstring) : Infix e s -> Infix e (a ++ s ++ b).
Proof.
  intros (x & y & ->). exists (a ++ x), (y ++ b). now rewrite <- !app_assoc.
Qed.

Lemma issuesSection_end (f : findings) :
  exists x, issuesSection f = x ++ nl ++ nl.
Proof.
  unfold issuesSection. destruct (0 <? length (issues f)).
  - exists (issuesHeading ++ join nl (issues f)). now rewrite <- !app_assoc.
  - now exists ([Ch.check_mark]
                ++ lit " No major maintainability issues found.").
Qed.

Lemma not_reminder_end (x : jsstring) :
  endsWith (x ++ nl ++ nl) reminder = false.
Proof.
  unfold endsWith. rewrite !rev_app_distr. reflexivity.
Qed.

Lemma compose_title (f : findings) : Prefix title (compose f).
Proof.
  unfold compose.
  destruct (pkgJsonModified f && negb (pkgLockModified f));
    destruct (0 <? length (todoComments f));
    rewrite <- ?app_assoc; now eexists.
Qed.

(** X10.  The comment starts with the title; every issue line and every
    todo entry of the findings occurs in it; and it ends with the reminder to
    address the todos exactly when there is a todo entry. *)
Theorem compose_shape (f : findings) :
  Prefix title (compose f)
  /\ (forall e, In e (issues f) -> Infix e (compose f))
  /\ (forall e, In e (todoComments f) -> Infix e (compose f))
  /\ (endsWith (compose f) reminder = true <-> 1 <= length (todoComments f)).
Proof.
  assert (E : compose f
              = title ++ issuesSection f
                ++ (if pkgJsonModified f && negb (pkgLockModified f)
                    then lockWarning else [])
                ++ (if 0 <? length (todoComments f) then todoSection f
                    else [])).
  { unfold compose.
    destruct (pkgJsonModified f && negb (pkgLockModified f));
      destruct (0 <? length (todoComments f));
      now rewrite ?app_nil_r, <- ?app_assoc. }
  split; [apply compose_title|]. split; [|split].
  - intros e He. rewrite E. unfold issuesSection.
    destruct (Infix_join nl e (issues f) He) as (a & b & Ej).
    destruct (issues f) as [|i0 il]; [destruct He|].
    change (0 <? length (i0 :: il)) with true. cbv iota. rewrite Ej.
    eexists (title ++ issuesHeading ++ a), _.
    rewrite <- !app_assoc. reflexivity.
  - intros e He. rewrite E. unfold todoSection.
    destruct (Infix_join nl e (todoComments f) He) as (a & b & Ej).
    destruct (todoComments f) as [|t0 tl]; [destruct He|].
    change (0 <? length (t0 :: tl)) with true. cbv iota. rewrite Ej.
    eexists (title ++ issuesSection f
             ++ (if pkgJsonModified f && negb (pkgLockModified f)
                 then lockWarning else [])
             ++ todoHeading ++ a), _.
    rewrite <- !app_assoc. reflexivity.
  - rewrite E. destruct (todoComments f) as [|t0 tl] eqn:Et.
    + change (0 <? length (@nil jsstring)) with false. cbv iota.
      rewrite app_nil_r. split; [|simpl; lia].
      intros H. exfalso.
      destruct (issuesSection_end f) as [x Ex].
      destruct (pkgJsonModified f && negb (pkgLockModified f)).
      * change lockWarning
          with ((warningEmoji ++ lit " `package.json` was modified but `package-lock.json` was not. Ensure lockfile is up to date!") ++ nl ++ nl) in H.
        rewrite !app_assoc, <- (app_assoc _ nl nl), not_reminder_end in H.
        discriminate.
      * rewrite app_nil_r, Ex, app_assoc, not_reminder_end in H.
        discriminate.
    + split; [simpl; lia|]. intros _.
      change (0 <? length (t0 :: tl)) with true. cbv iota.
      apply endsWith_Suffix. unfold todoSection.
      eexists. rewrite !app_assoc. reflexivity.
Qed.

(** ** One run of the handler *)

Section HandlerRuns.
Variable World : Type.
Variable listFiles :
  jsstring -> jsstring -> N -> World -> (jsstring + list ChangedFile) * World.
Variable getContentAt :
  jsstring -> jsstring -> jsstring -> jsstring -> World
  -> (jsstring + jsstring) * World.
Variable createComment :
  jsstring -> jsstring -> N -> jsstring -> World -> (jsstring + unit) * World.

(** X11.  A run posts nothing and requests no content unless the event
    carries an installation id and the file list could be fetched: without
    the id the run ends early, leaving the service untouched; when the list
    cannot be fetched its error is thrown again.  No run passes more than one
    body to [createComment]. *)
Theorem handler_posts_at_most_once (ev : prEvent) (w : World) :
  let r := handlePullRequest listFiles getContentAt createComment ev w in
  length (posted r) <= 1
  /\ (missingInstallation ev = true ->
      ended r = Skipped /\ posted r = [] /\ fetched r = [] /\ service r = w
      /\ logged r = [LogReceived (payloadText ev);
                     LogMissingInstallation (payloadText ev)])
  /\ (forall message w1,
         missingInstallation ev = false ->
         listFiles (repoOwner ev) (repoName ev) (prNumber ev) w
         = (inl message, w1) ->
         ended r = Thrown message /\ posted r = [] /\ fetched r = []
         /\ service r = w1)
  /\ (ended r = Skipped -> missingInstallation ev = true).
Proof.
  cbv zeta. unfold handlePullRequest.
  destruct (missingInstallation ev) eqn:Hm.
  - simpl. split; [lia|]. split; [intros _; repeat split|].
    split; [intros message w1 H; discriminate H|reflexivity].
  - destruct (listFiles (repoOwner ev) (repoName ev) (prNumber ev) w)
      as [[message|files] w1].
    + simpl. split; [lia|]. split; [intros H; discriminate H|].
      split; [|intros H; discriminate H].
      intros m' w1' _ E. injection E as <- <-. repeat split.
    + destruct (createComment _ _ _ _ _) as [[message|u] w2]; simpl;
        (split; [lia|]); (split; [intros H; discriminate H|]);
        (split; [|intros H; discriminate H]);
        intros m' w1' _ E; discriminate E.
Qed.

(** X12.  With an installation id and a file list, the run requests the
    content of the eligible files, in order, and passes exactly one body to
    [createComment]: the comment composed from the findings of the loop,
    whether or not the content requests succeeded.  The run ends normally
    when the comment is accepted, and throws the error of [createComment]
    again otherwise. *)
Theorem handler_comments_once (ev : prEvent) (w w1 : World)
        (files : list ChangedFile) :
  missingInstallation ev = false ->
  listFiles (repoOwner ev) (repoName ev) (prNumber ev) w = (inr files, w1) ->
  let r := handlePullRequest listFiles getContentAt createComment ev w in
  let st := aggregate (getContentAt (repoOwner ev) (repoName ev) (headSha ev))
                      files w1 in
  posted r = [compose (found st)]
  /\ fetched r = map filename (filter eligible files)
  /\ Prefix title (hd [] (posted r))
  /\ (forall w2,
         createComment (repoOwner ev) (repoName ev) (prNumber ev)
                       (compose (found st)) (world st) = (inr tt, w2) ->
         ended r = Done /\ service r = w2
         /\ last (logged r) (LogReceived []) = LogCommented (prNumber ev))
  /\ (forall message w2,
         createComment (repoOwner ev) (repoName ev) (prNumber ev)
                       (compose (found st)) (world st) = (inl message, w2) ->
         ended r = Thrown message /\ service r = w2
         /\ last (logged r) (LogReceived [])
            = processingError ev message).
Proof.
  intros Hm Hl r st. subst r. unfold handlePullRequest. rewrite Hm, Hl.
  fold st.
  assert (R : requested st = map filename (filter eligible files)).
  { unfold st, aggregate. now rewrite processFiles_requested. }
  destruct (createComment (repoOwner ev) (repoName ev) (prNumber ev)
              (compose (found st)) (world st)) as [[message|[]] w2] eqn:Ec;
    cbn [ended posted fetched service logged hd];
    (split; [reflexivity|]); (split; [exact R|]);
    (split; [apply compose_title|]); split.
  - intros w2' E. discriminate.
  - intros m' w2' E. injection E as <- <-. repeat split.
    apply last_last.
  - intros w2' E. injection E as <-. repeat split. apply last_last.
  - intros m' w2' E. discriminate.
Qed.
End HandlerRuns.

(** A service for the witness: one eligible file, whose text is fetched and
    whose comment is accepted. *)
Lemma handler_comments_once_witness :
  let ev := mkEvent (Some 7%N) 12%N (lit "octo") (lit "repo")
                    (lit "octo/repo") (lit "abc123") (lit "{}") in
  let r :=
    handlePullRequest
      (fun _ _ _ (w : unit) =>
         (inr [mkFile (lit "a.js") (Some (lit "@@"))], w))
      (fun _ _ _ _ (w : unit) => (inr (lit "// TODO: tidy up"), w))
      (fun _ _ _ _ (w : unit) => (inr tt, w)) ev tt in
  posted r
  = [title ++ noIssuesLine ++ todoHeading
     ++ lit "- `a.js`: // TODO: tidy up" ++ reminder]
  /\ fetched r = [lit "a.js"].
Proof.
  destruct (@handler_comments_once unit
              (fun _ _ _ (w : unit) =>
                 (inr [mkFile (lit "a.js") (Some (lit "@@"))], w))
              (fun _ _ _ _ (w : unit) => (inr (lit "// TODO: tidy up"), w))
              (fun _ _ _ _ (w : unit) => (inr tt, w))
              (mkEvent (Some 7%N) 12%N (lit "octo") (lit "repo")
                       (lit "octo/repo") (lit "abc123") (lit "{}"))
              tt tt [mkFile (lit "a.js") (Some (lit "@@"))]
              eq_refl eq_refl) as (Hp & Hf & _).
  split; [rewrite Hp; vm_compute; reflexivity|exact Hf].
Defined.

(** ** Numbers in the issue lines *)

Lemma parseDecimal_acc (d : Decimal.uint) : forall acc,
  fold_left (fun a c => 10 * a + (N.to_nat c - 48)) (uint_chars d) acc
  = Nat.of_uint_acc d acc.
Proof.
  induction d; intros acc; simpl; rewrite ?Nat.tail_mul_spec;
    try reflexivity; rewrite IHd; f_equal; lia.
Qed.

Lemma numberToString_parse (n : nat) : parseDecimal (numberToString n) = n.
Proof.
  unfold parseDecimal, numberToString. rewrite parseDecimal_acc.
  apply DecimalNat.Unsigned.of_to.
Qed.

(** X13.  The number in an issue line is written in decimal digits that
    read back as the number, so the line of a file tells its metric: equal
    lines for one file come from equal line counts, and from equal method
    counts. *)
Theorem issue_line_tells_metric (name : jsstring) (a b : nat) :
  parseDecimal (numberToString a) = a
  /\ Forall (fun c => (48 <=? c)%N && (c <=? 57)%N = true) (numberToString a)
  /\ (locIssue name a = locIssue name b -> a = b)
  /\ (nomIssue name a = nomIssue name b -> a = b).
Proof.
  split; [apply numberToString_parse|]. split; [|split].
  - unfold numberToString. induction (Nat.to_uint a); simpl;
      constructor; auto.
  - unfold locIssue. intros E.
    apply app_inv_head, app_inv_head, app_inv_head in E.
    apply app_inv_tail in E.
    rewrite <- (numberToString_parse a), <- (numberToString_parse b).
    now rewrite E.
  - unfold nomIssue. intros E.
    apply app_inv_head, app_inv_head, app_inv_head in E.
    apply app_inv_tail in E.
    rewrite <- (numberToString_parse a), <- (numberToString_parse b).
    now rewrite E.
Qed.

(** ** What the lines of the findings report *)

Lemma checks_issues (name content : jsstring) :
  pushedIssues (checks name content)
  = (if 200 <? countLines content
     then [locIssue name (countLines content)] else [])
    ++ (if 8 <? countMethods content
        then [nomIssue name (countMethods content)] else [])
  /\ pushedTodos (checks name content)
     = map (todoEntry name) (findTodos content).
Proof.
  unfold checks. rewrite checks_todos_tail, !pushedIssues_app, !pushedTodos_app.
  rewrite pushedIssues_todos, pushedTodos_todos, app_nil_r.
  destruct (200 <? countLines content), (8 <? countMethods content); auto.
Qed.

Section Justified.
Variable World : Type.
Variable getContent : jsstring -> World -> (jsstring + jsstring) * World.

Lemma processFile_justified st file :
  Forall (JustifiedIssue (requested st)) (issues (found st)) ->
  Forall (JustifiedTodo (requested st)) (todoComments (found st)) ->
  Forall (JustifiedIssue (requested (processFile getContent st file)))
         (issues (found (processFile getContent st file)))
  /\ Forall (JustifiedTodo (requested (processFile getContent st file)))
            (todoComments (found (processFile getContent st file))).
Proof.
  intros Hi Ht. rewrite processFile_requested.
  assert (Hi' : Forall (JustifiedIssue
                         (requested st ++ (if eligible file
                                           then [filename file] else [])))
                       (issues (found st))).
  { eapply Forall_impl; [|exact Hi]. intros e (n & c & Hn & H).
    exists n, c. split; [apply in_or_app; now left|exact H]. }
  assert (Ht' : Forall (JustifiedTodo
                         (requested st ++ (if eligible file
                                           then [filename file] else [])))
                       (todoComments (found st))).
  { eapply Forall_impl; [|exact Ht]. intros e (n & c & t & Hn & H).
    exists n, c, t. split; [apply in_or_app; now left|exact H]. }
  unfold processFile. simpl.
  destruct (bookkeeping_lines
              (found (if eligible file
                      then analyzeFile getContent st (filename file)
                      else st)) (filename file)) as [-> ->].
  destruct (eligible file); [|auto]. unfold analyzeFile.
  destruct (getContent (filename file) (world st)) as [[message|content] w];
    simpl; [auto|].
  rewrite applyPush_fold. simpl.
  destruct (checks_issues (filename file) content) as [-> ->].
  assert (Hin : In (filename file) (requested st ++ [filename file]))
    by (apply in_or_app; right; now left).
  split; apply Forall_app; split; auto.
  - apply Forall_app. split.
    + destruct (200 <? countLines content) eqn:L; constructor; [|constructor].
      exists (filename file), content. split; [exact Hin|]. left.
      split; [reflexivity|now apply Nat.ltb_lt].
    + destruct (8 <? countMethods content) eqn:L; constructor; [|constructor].
      exists (filename file), content. split; [exact Hin|]. right.
      split; [reflexivity|now apply Nat.ltb_lt].
  - apply Forall_forall. intros e He. apply in_map_iff in He.
    destruct He as (todo & <- & Htodo).
    now exists (filename file), content, todo.
Qed.

(** X14.  Every issue line of the findings names an eligible file of the
    list and reports a line count above 200 or a method count above 8, and
    every todo entry names such a file and quotes a todo found in a text:
    the loop never reports a metric at or below its threshold, and never a
    file it did not request. *)
Theorem findings_justified (files : list ChangedFile) (w : World) :
  Forall (JustifiedIssue (map filename (filter eligible files)))
         (issues (found (aggregate getContent files w)))
  /\ Forall (JustifiedTodo (map filename (filter eligible files)))
            (todoComments (found (aggregate getContent files w))).
Proof.
  assert (G : forall l st,
             Forall (JustifiedIssue (requested st)) (issues (found st)) ->
             Forall (JustifiedTodo (requested st)) (todoComments (found st)) ->
             Forall (JustifiedIssue (requested (processFiles getContent st l)))
                    (issues (found (processFiles getContent st l)))
             /\ Forall (JustifiedTodo
                          (requested (processFiles getContent st l)))
                       (todoComments (found (processFiles getContent st l)))).
  { induction l as [|file l IH]; intros st Hi Ht; [auto|].
    rewrite processFiles_cons.
    destruct (@processFile_justified st file Hi Ht) as [Hi' Ht'].
    now apply IH. }
  destruct (G files (initialState w)) as [Hi Ht];
    [constructor|constructor|].
  unfold aggregate. rewrite processFiles_requested in Hi, Ht.
  simpl in Hi, Ht. split; assumption.
Qed.
End Justified.
